(** * megophone: the Metaphone scanning engine of [metaphone.go]

    A shallow embedding of the Go package [megophone] and the properties of
    its entry point [Metaphone].

    Go strings are sequences of bytes, so they are embedded as [string]
    (a list of [ascii], that is of bytes).  Go's [int] is embedded as [Z]
    with the 64-bit two's complement wrap-around written out.  A run-time
    panic (an index or a slice expression out of range) is an explicit
    outcome of the model. *)

From Stdlib Require Import ZArith String Ascii List Bool Lia.
Import ListNotations.

Local Open Scope string_scope.
Local Open Scope Z_scope.

(** ** Outcomes: a value, a run-time panic, or the scan loop out of fuel *)

Inductive result (A : Type) : Type :=
| Ok (a : A)
| Panic
| OutOfFuel.

Arguments Ok {A} a.
Arguments Panic {A}.
Arguments OutOfFuel {A}.

Definition bind {A B : Type} (m : result A) (f : A -> result B) : result B :=
  match m with
  | Ok a => f a
  | Panic => Panic
  | OutOfFuel => OutOfFuel
  end.

Notation "x <- m ;; k" := (bind m (fun x => k))
  (at level 61, m at next level, right associativity).

(** Go's short-circuit operators over conditions that may panic: the right
    operand is not evaluated when the left one decides. *)

Definition andM (a b : result bool) : result bool :=
  x <- a ;; if x then b else Ok false.

Definition orM (a b : result bool) : result bool :=
  x <- a ;; if x then Ok true else b.

Definition notM (a : result bool) : result bool :=
  x <- a ;; Ok (negb x).

Infix "&&&" := andM (at level 40, left associativity).
Infix "|||" := orM (at level 50, left associativity).

(** ** Go's [int] *)

Module Int.

Definition min_int : Z := - 2 ^ 63.
Definition max_int : Z := 2 ^ 63 - 1.

Definition wrap (z : Z) : Z := (z + 2 ^ 63) mod 2 ^ 64 - 2 ^ 63.

Definition add (a b : Z) : Z := wrap (a + b).
Definition neg (a : Z) : Z := wrap (- a).

End Int.

(** ** Go's strings: [len], indexing and slicing, each with its bounds check *)

Definition len (s : string) : Z := Z.of_nat (String.length s).

(** [t[i]] *)
Definition index (t : string) (i : Z) : result ascii :=
  if (0 <=? i) && (i <? len t) then
    match String.get (Z.to_nat i) t with
    | Some ch => Ok ch
    | None => Panic
    end
  else Panic.

(** [t[lo:hi]] *)
Definition slice (t : string) (lo hi : Z) : result string :=
  if (0 <=? lo) && (lo <=? hi) && (hi <=? len t) then
    Ok (String.substring (Z.to_nat lo) (Z.to_nat (hi - lo)) t)
  else Panic.

(** ** The scan state *)

Record phoneticData : Type := mkPhoneticData {
  t : string;
  cur : Z;
  isSlavoGermanic : bool;
  metaphone1 : string;
  metaphone2 : string
}.

Definition set_cur (n : Z) (p : phoneticData) : phoneticData :=
  mkPhoneticData (t p) n (isSlavoGermanic p) (metaphone1 p) (metaphone2 p).

Definition set_codes (m1 m2 : string) (p : phoneticData) : phoneticData :=
  mkPhoneticData (t p) (cur p) (isSlavoGermanic p) m1 m2.

(** ** The primitives *)

Fixpoint matchesAny_range (p : phoneticData) (pos : Z) (matches : list string)
  : result bool :=
  match matches with
  | [] => Ok false
  | str :: rest =>
      let size := len str in
      w <- slice (t p) (Int.add (cur p) pos) (Int.add (Int.add (cur p) size) pos) ;;
      if String.eqb w str then Ok true else matchesAny_range p pos rest
  end.

Definition matchesAny (p : phoneticData) (pos : Z) (matches : list string)
  : result bool :=
  match matches with
  | [] => Ok true
  | _ :: _ =>
      if Int.add (cur p) pos <? 0 then Ok false
      else matchesAny_range p pos matches
  end.

Definition add (phoneme : list string) (p : phoneticData) : phoneticData :=
  match phoneme with
  | [] => p
  | ph0 :: rest =>
      match rest with
      | ph1 :: _ => set_codes (metaphone1 p ++ ph0) (metaphone2 p ++ ph1) p
      | [] => set_codes (metaphone1 p ++ ph0) (metaphone2 p ++ ph0) p
      end
  end.

Definition skip (skipBy : Z) (p : phoneticData) : phoneticData :=
  set_cur (Int.add (cur p) skipBy) p.

Definition isVowel (p : phoneticData) (pos : Z) : result bool :=
  matchesAny p pos ["a"; "e"; "i"; "o"; "u"; "y"].

(** ** The letter handlers *)

Definition b (p : phoneticData) : result phoneticData :=
  let p := add ["p"] p in
  ch <- index (t p) (Int.add (cur p) 1) ;;
  if Ascii.eqb ch "b" then Ok (skip 1 p) else Ok p.

Definition ç (p : phoneticData) : result phoneticData :=
  Ok (add ["s"] p).

(** The conditions of the [if]/[else if] chain of [c], top to bottom. *)

Definition c_germanic (p : phoneticData) : result bool :=
  Ok (1 <? cur p) &&& notM (isVowel p (-2)) &&& matchesAny p (-1) ["ach"]
    &&& notM (matchesAny p 2 ["i"])
    &&& (notM (matchesAny p 2 ["e"]) ||| matchesAny p (-2) ["acher"]).

Definition c_caesar (p : phoneticData) : result bool :=
  Ok (cur p =? 0) &&& matchesAny p 0 ["caesar"].

Definition c_chia (p : phoneticData) : result bool :=
  matchesAny p 0 ["chia"].

Definition c_ch (p : phoneticData) : result bool :=
  matchesAny p 0 ["ch"].

Definition c_cz (p : phoneticData) : result bool :=
  matchesAny p 0 ["cz"] &&& notM (matchesAny p (-2) ["wicz"]).

Definition c_cia (p : phoneticData) : result bool :=
  matchesAny p 1 ["cia"].

(** The conditions of the chain nested under ["ch"]. *)

Definition ch_michael (p : phoneticData) : result bool :=
  Ok (0 <? cur p) &&& matchesAny p 0 ["chae"].

Definition ch_greek (p : phoneticData) : result bool :=
  Ok (cur p =? 0) &&& notM (matchesAny p 0 ["chore"])
    &&& matchesAny p 1 ["harac"; "haris"; "hor"; "hym"; "hia"; "hem"].

Definition ch_kh (p : phoneticData) : result bool :=
  matchesAny p (Int.neg (cur p)) ["van "; "von "; "sch"]
    ||| matchesAny p (-2) ["orches"; "archit"; "orchid"]
    ||| matchesAny p 2 ["t"; "s"]
    ||| ((matchesAny p (-1) ["a"; "e"; "o"; "u"] ||| Ok (cur p =? 0))
         &&& matchesAny p 2 ["l"; "r"; "n"; "m"; "b"; "h"; "f"; "v"; "w"; " "]).

Definition ch_mc (p : phoneticData) : result bool :=
  matchesAny p (Int.neg (cur p)) ["mc"].

Definition c (p : phoneticData) : result phoneticData :=
  r1 <- c_germanic p ;;
  if r1 then Ok (skip 1 (add ["k"] p)) else
  r2 <- c_caesar p ;;
  if r2 then Ok (skip 1 (add ["s"] p)) else
  r3 <- c_chia p ;;
  if r3 then Ok (skip 1 (add ["k"] p)) else
  r4 <- c_ch p ;;
  if r4 then
    p' <- (r4a <- ch_michael p ;;
           if r4a then Ok (add ["k"] p) else
           r4b <- ch_greek p ;;
           if r4b then Ok (add ["k"] p) else
           r4c <- ch_kh p ;;
           if r4c then Ok (add ["k"] p) else
           if 0 <? cur p then
             r4d <- ch_mc p ;;
             if r4d then Ok (add ["k"] p) else Ok (add ["x"; "k"] p)
           else Ok (add ["x"] p)) ;;
    Ok (skip 1 p')
  else
  r5 <- c_cz p ;;
  if r5 then Ok (skip 1 (add ["s"; "x"] p)) else
  r6 <- c_cia p ;;
  if r6 then Ok (skip 2 (add ["x"] p)) else
  Ok p.

(** ** The entry point *)

(** The bytes the [switch] of the scan loop compares [next] with.  [next] is
    a byte, so the rune constant of the cedilla case is the byte 231. *)

Definition vowel_bytes : list ascii := ["a"; "e"; "i"; "o"; "u"; "y"]%char.

Definition cedilla_byte : ascii := "231"%char.

Definition byte_in (ch : ascii) (l : list ascii) : bool :=
  existsb (Ascii.eqb ch) l.

(** The body of the [for] loop: the [switch] on [p.t[p.cur]], then [p.cur++]. *)
Definition dispatch (p : phoneticData) : result phoneticData :=
  next <- index (t p) (cur p) ;;
  p' <- (if byte_in next vowel_bytes then
           if cur p =? 0 then Ok (add ["a"] p) else Ok p
         else if Ascii.eqb next "b" then b p
         else if Ascii.eqb next cedilla_byte then ç p
         else if Ascii.eqb next "c" then c p
         else Ok p) ;;
  Ok (set_cur (Int.add (cur p') 1) p').

(** [for p.cur < len(p.t) { ... }] *)
Fixpoint scan (fuel : nat) (p : phoneticData) : result phoneticData :=
  if cur p <? len (t p) then
    match fuel with
    | O => OutOfFuel
    | S fuel' => p' <- dispatch p ;; scan fuel' p'
    end
  else Ok p.

Definition padding : string := "     ".

(** [p = &phoneticData{}; p.t = s + "     "] *)
Definition initial (s : string) : phoneticData :=
  mkPhoneticData (s ++ padding) 0 false "" "".

Definition silent_clusters : list string := ["gn"; "kn"; "pn"; "wr"; "ps"].

(** The first [if] of [Metaphone]. *)
Definition skip_silent (p : phoneticData) : result phoneticData :=
  r <- matchesAny p 0 silent_clusters ;;
  if r then Ok (skip 2 p) else Ok p.

(** The second [if] of [Metaphone]. *)
Definition initial_x (p : phoneticData) : result phoneticData :=
  r <- matchesAny p 0 ["x"] ;;
  if r then Ok (add ["s"] p) else Ok p.

(** The state on entry to the loop. *)
Definition prescan (s : string) : result phoneticData :=
  p <- skip_silent (initial s) ;; initial_x p.

Definition Metaphone_fuel (fuel : nat) (s : string) : result (string * string) :=
  p <- prescan s ;;
  p <- scan fuel p ;;
  Ok (metaphone1 p, metaphone2 p).

(** One iteration per byte of the padded text is all the loop can need. *)
Definition Metaphone (s : string) : result (string * string) :=
  Metaphone_fuel (String.length (s ++ padding)) s.

(** *** The trace line

    [Metaphone] prints one line with [fmt.Println] before it returns; the
    standard output is the only thing a call shares with the next one. *)

Definition newline : string := String "010"%char EmptyString.

Definition Println (operands : list string) (stdout : string) : string :=
  stdout ++ String.concat " " operands ++ newline.

Definition tab : string := String "009"%char EmptyString.

Definition Metaphone_call (s : string) (stdout : string)
  : result ((string * string) * string) :=
  r <- Metaphone s ;;
  Ok (r, Println ["First: "; fst r; tab ++ "Second: "; snd r;
                  tab ++ " Original: "; s] stdout).

(** ** The run of the scan loop as a step relation *)

Inductive scans : phoneticData -> phoneticData -> Prop :=
| scans_here p : scans p p
| scans_next p p' p'' :
    scans p p' -> cur p' < len (t p') -> dispatch p' = Ok p'' -> scans p p''.

(** The states at the head of the loop during the encoding of [s]. *)
Definition visited (s : string) (p : phoneticData) : Prop :=
  exists p0, prescan s = Ok p0 /\ scans p0 p.

(** ** Windows of the text, read without side conditions *)

(** [window p off n]: the [n] bytes of the text from [cur p + off]. *)
Definition window (p : phoneticData) (off : Z) (n : nat) : string :=
  String.substring (Z.to_nat (cur p + off)) n (t p).

(** The answer of the matcher where no read leaves the text. *)
Definition win_in (p : phoneticData) (off : Z) (cands : list string) : bool :=
  match cands with
  | [] => true
  | _ :: _ =>
      (0 <=? cur p + off)
      && existsb (fun str => String.eqb (window p off (String.length str)) str) cands
  end.

(** The cursor is on a byte of the word, before the padding. *)
Definition in_word (p : phoneticData) : Prop :=
  0 <= cur p /\ cur p + 6 <= len (t p) /\ len (t p) <= Int.max_int.

(** The padded text of a word is a Go string: its length is an [int]. *)
Definition representable (s : string) : Prop :=
  len (s ++ padding) <= Int.max_int.

(** ** The decision table of the [c] handler

    The handler read as a table: one row per rule, top to bottom, with the
    condition under which the rule applies, the fragments it emits to the
    primary and to the secondary code, and the extra skip.  The rules nested
    under ["ch"] are rows of their own, each guarded by the ["ch"] window. *)

Record rule : Type := mkRule {
  label : string;
  applies : phoneticData -> bool;
  emitP : string;
  emitS : string;
  extra : Z
}.

Definition vowel_at (p : phoneticData) (off : Z) : bool :=
  win_in p off ["a"; "e"; "i"; "o"; "u"; "y"].

Definition rule1 : rule :=
  mkRule "1"
    (fun p => (1 <? cur p) && negb (vowel_at p (-2)) && win_in p (-1) ["ach"]
              && negb (win_in p 2 ["i"])
              && (negb (win_in p 2 ["e"]) || win_in p (-2) ["acher"]))
    "k" "k" 1.

Definition rule2 : rule :=
  mkRule "2" (fun p => (cur p =? 0) && win_in p 0 ["caesar"]) "s" "s" 1.

Definition rule3 : rule :=
  mkRule "3" (fun p => win_in p 0 ["chia"]) "k" "k" 1.

Definition rule4a : rule :=
  mkRule "4a"
    (fun p => win_in p 0 ["ch"] && ((0 <? cur p) && win_in p 0 ["chae"]))
    "k" "k" 1.

Definition rule4b : rule :=
  mkRule "4b"
    (fun p => win_in p 0 ["ch"]
              && ((cur p =? 0) && negb (win_in p 0 ["chore"])
                  && win_in p 1 ["harac"; "haris"; "hor"; "hym"; "hia"; "hem"]))
    "k" "k" 1.

Definition rule4c : rule :=
  mkRule "4c"
    (fun p => win_in p 0 ["ch"]
              && (win_in p (- cur p) ["van "; "von "; "sch"]
                  || win_in p (-2) ["orches"; "archit"; "orchid"]
                  || win_in p 2 ["t"; "s"]
                  || ((win_in p (-1) ["a"; "e"; "o"; "u"] || (cur p =? 0))
                      && win_in p 2 ["l"; "r"; "n"; "m"; "b"; "h"; "f"; "v";
                                     "w"; " "])))
    "k" "k" 1.

Definition rule4d : rule :=
  mkRule "4d"
    (fun p => win_in p 0 ["ch"] && ((0 <? cur p) && win_in p (- cur p) ["mc"]))
    "k" "k" 1.

Definition rule4e : rule :=
  mkRule "4e" (fun p => win_in p 0 ["ch"] && (0 <? cur p)) "x" "k" 1.

Definition rule4f : rule :=
  mkRule "4f" (fun p => win_in p 0 ["ch"]) "x" "x" 1.

Definition rule5 : rule :=
  mkRule "5"
    (fun p => win_in p 0 ["cz"] && negb (win_in p (-2) ["wicz"])) "s" "x" 1.

Definition rule6 : rule :=
  mkRule "6" (fun p => win_in p 1 ["cia"]) "x" "x" 2.

Definition c_table : list rule :=
  [rule1; rule2; rule3; rule4a; rule4b; rule4c; rule4d; rule4e; rule4f;
   rule5; rule6].

(** The first row of the table whose condition holds, if any. *)
Definition first_match (p : phoneticData) : option rule :=
  find (fun r => applies r p) c_table.

(** What a row does: one emission, then the extra skip.  With no row, nothing. *)
Definition fire (r : option rule) (p : phoneticData) : phoneticData :=
  match r with
  | Some r => skip (extra r) (add [emitP r; emitS r] p)
  | None => p
  end.

(** Windows that end at most six bytes from the cursor. *)
Definition near (pos : Z) (cands : list string) : bool :=
  forallb (fun str => (len str <=? 6) && (pos + len str <=? 6)) cands.

(** ** Vocabulary of the statements *)

(** The fragments the handlers emit. *)
Definition fragments : list string := ["a"; "p"; "s"; "k"; "x"].

(** [p'] holds the codes of [p] after no emission, or after one emission of
    a fragment to each code. *)
Definition emitted (p p' : phoneticData) : Prop :=
  (metaphone1 p' = metaphone1 p /\ metaphone2 p' = metaphone2 p)
  \/ exists f1 f2, In f1 fragments /\ In f2 fragments
       /\ metaphone1 p' = metaphone1 p ++ f1
       /\ metaphone2 p' = metaphone2 p ++ f2.

(** A state of the scan of some padded text whose length is an [int]. *)
Definition scanning (p : phoneticData) : Prop :=
  (exists s, t p = s ++ padding)
  /\ 0 <= cur p <= len (t p) /\ len (t p) <= Int.max_int.

(** Every byte of a string satisfies a test. *)
Fixpoint all_bytes (f : ascii -> bool) (s : string) : bool :=
  match s with
  | EmptyString => true
  | String ch s' => f ch && all_bytes f s'
  end.

(** The bytes ['A'] to ['Z']. *)
Definition is_upper (ch : ascii) : bool :=
  (65 <=? nat_of_ascii ch)%nat && (nat_of_ascii ch <=? 90)%nat.

(** The bytes the [switch] has no case for. *)
Definition unhandled (ch : ascii) : bool :=
  negb (byte_in ch vowel_bytes || Ascii.eqb ch "b"
        || Ascii.eqb ch cedilla_byte || Ascii.eqb ch "c").

(** The bytes of the fragments. *)
Definition code_byte (ch : ascii) : bool :=
  byte_in ch ["a"; "p"; "s"; "k"; "x"]%char.

(** The word begins with one of the silent clusters. *)
Definition begins_silent (s : string) : bool :=
  existsb (fun cl => String.prefix cl s) silent_clusters.

(** The second [if] of [Metaphone] turned [p0] into [p] by emitting ["s"] to
    both codes. *)
Definition emits_s (p0 p : phoneticData) : Prop :=
  metaphone1 p = metaphone1 p0 ++ "s" /\ metaphone2 p = metaphone2 p0 ++ "s".

(** The encoding of [s] emits ["s"] before the loop. *)
Definition emits_initial_s (s : string) : Prop :=
  exists p0 p, skip_silent (initial s) = Ok p0 /\ initial_x p0 = Ok p
               /\ emits_s p0 p.

(** The pair a call returns, without the standard output. *)
Definition returned {A B : Type} (r : result (A * B)) : result A :=
  x <- r ;; Ok (fst x).

(** The Go string literal of c-cedilla: the two bytes of its UTF-8 encoding. *)
Definition cedilla_utf8 : string :=
  String "195"%char (String "167"%char EmptyString).

(** [n] copies of a byte. *)
Fixpoint replicate (n : nat) (ch : ascii) : string :=
  match n with
  | O => EmptyString
  | S n' => String ch (replicate n' ch)
  end.

(** The bytes that can never contribute to a code: no case of the [switch]
    and not the ['x'] of the check before the loop. *)
Definition inert (ch : ascii) : bool :=
  unhandled ch && negb (Ascii.eqb ch "x").

(** The state after the first [if] of [Metaphone], and the state on entry to
    the loop, written out. *)
Definition after_skip (s : string) : phoneticData :=
  if win_in (initial s) 0 silent_clusters then skip 2 (initial s)
  else initial s.

Definition on_entry (s : string) : phoneticData :=
  if win_in (after_skip s) 0 ["x"] then add ["s"] (after_skip s)
  else after_skip s.

(** The same scan state over the text with one more space at its end. *)
Definition widen (p : phoneticData) : phoneticData :=
  mkPhoneticData (t p ++ " ") (cur p) (isSlavoGermanic p)
    (metaphone1 p) (metaphone2 p).

(** * Properties *)

(** ** Arithmetic of [int] within range *)

Lemma wrap_small (z : Z) :
  Int.min_int <= z <= Int.max_int -> Int.wrap z = z.
Proof.
  unfold Int.wrap, Int.min_int, Int.max_int; intros H.
  rewrite Z.mod_small by lia. lia.
Qed.

Lemma add_small (a k : Z) :
  Int.min_int <= a + k <= Int.max_int -> Int.add a k = a + k.
Proof. apply wrap_small. Qed.

Lemma neg_small (a : Z) :
  0 <= a <= Int.max_int -> Int.neg a = - a.
Proof.
  intros H. apply wrap_small. unfold Int.min_int, Int.max_int in *. lia.
Qed.

Lemma max_int_large : 1000 <= Int.max_int.
Proof. unfold Int.max_int. lia. Qed.

Lemma min_int_small : Int.min_int <= -1000.
Proof. unfold Int.min_int. lia. Qed.

(** ** Bytes and windows of a Go string *)

Lemma len_nonneg (s : string) : 0 <= len s.
Proof. unfold len. lia. Qed.

Lemma length_append (a z : string) :
  String.length (a ++ z) = (String.length a + String.length z)%nat.
Proof. induction a as [|ch a IH]; simpl; [reflexivity | now rewrite IH]. Qed.

Lemma len_append (a z : string) : len (a ++ z) = len a + len z.
Proof. unfold len. rewrite length_append. lia. Qed.

Lemma len_padded (s : string) : len (s ++ padding) = len s + 5.
Proof. rewrite len_append. reflexivity. Qed.

Lemma get_in_range (s : string) (i : nat) :
  (i < String.length s)%nat -> exists ch, String.get i s = Some ch.
Proof.
  revert i. induction s as [|ch s IH]; simpl; intros i H; [lia|].
  destruct i as [|i]; [now exists ch|]. apply IH. lia.
Qed.

Lemma get_out_of_range (s : string) (i : nat) :
  (String.length s <= i)%nat -> String.get i s = None.
Proof.
  revert i. induction s as [|ch s IH]; simpl; intros i H.
  - now destruct i.
  - destruct i as [|i]; [lia|]. apply IH. lia.
Qed.

Lemma get_append_left (a z : string) (i : nat) :
  (i < String.length a)%nat -> String.get i (a ++ z) = String.get i a.
Proof.
  revert i. induction a as [|ch a IH]; simpl; intros i H; [lia|].
  destruct i as [|i]; [reflexivity|]. apply IH. lia.
Qed.

Lemma get_append_right (a z : string) (i : nat) :
  (String.length a <= i)%nat ->
  String.get i (a ++ z) = String.get (i - String.length a) z.
Proof.
  revert i. induction a as [|ch a IH]; simpl; intros i H.
  - now rewrite Nat.sub_0_r.
  - destruct i as [|i]; [lia|]. simpl. apply IH. lia.
Qed.

(** The bytes past the word are the spaces of the padding. *)
Lemma get_padding (s : string) (i : nat) :
  (String.length s <= i < String.length s + 5)%nat ->
  String.get i (s ++ padding) = Some " "%char.
Proof.
  intros H. rewrite get_append_right by lia.
  remember (i - String.length s)%nat as k eqn:Hk.
  assert (Hlt : (k < 5)%nat) by lia.
  do 5 (destruct k as [|k]; [reflexivity|]). lia.
Qed.

Lemma index_Ok (t0 : string) (i : Z) (ch : ascii) :
  index t0 i = Ok ch <->
  0 <= i < len t0 /\ String.get (Z.to_nat i) t0 = Some ch.
Proof.
  unfold index.
  destruct (0 <=? i) eqn:H0; destruct (i <? len t0) eqn:H1; simpl;
    try (split; [discriminate | lia]).
  destruct (String.get (Z.to_nat i) t0) as [x|] eqn:Hg.
  - split; [intros [= <-]; split; [lia | reflexivity]
           | intros [_ [= <-]]; reflexivity].
  - split; [discriminate | intros [_ H]; discriminate].
Qed.

Lemma index_total (t0 : string) (i : Z) :
  0 <= i < len t0 -> exists ch, index t0 i = Ok ch.
Proof.
  intros H. destruct (get_in_range t0 (Z.to_nat i)) as [ch Hch].
  - unfold len in H. lia.
  - exists ch. apply index_Ok. auto.
Qed.

(** A byte of the padded text that is not a space is a byte of the word. *)
Lemma index_before_padding (s : string) (i : Z) (ch : ascii) :
  index (s ++ padding) i = Ok ch -> ch <> " "%char -> i < len s.
Proof.
  intros H Hch. apply index_Ok in H. destruct H as [[H0 H1] Hg].
  rewrite len_padded in H1.
  destruct (Z_lt_ge_dec i (len s)) as [Hlt|Hge]; [exact Hlt|].
  rewrite get_padding in Hg by (unfold len in *; lia).
  congruence.
Qed.

(** A window equal to a candidate agrees with it byte by byte. *)
Lemma window_bytes (t0 str : string) (i k : nat) :
  String.eqb (String.substring i (String.length str) t0) str = true ->
  (k < String.length str)%nat ->
  String.get (i + k) t0 = String.get k str.
Proof.
  intros H Hk. apply String.eqb_eq in H.
  rewrite Nat.add_comm, <- (substring_correct1 t0 i _ k Hk).
  now rewrite H.
Qed.

(** ** The matcher within the text *)

Lemma slice_window (p : phoneticData) (pos : Z) (str : string) :
  0 <= cur p + pos ->
  cur p + pos + len str <= len (t p) ->
  slice (t p) (cur p + pos) (cur p + len str + pos)
  = Ok (window p pos (String.length str)).
Proof.
  intros H0 H1. unfold slice, window.
  assert (Hs := len_nonneg str).
  replace (0 <=? cur p + pos) with true by (symmetry; apply Z.leb_le; lia).
  replace (cur p + pos <=? cur p + len str + pos) with true
    by (symmetry; apply Z.leb_le; lia).
  replace (cur p + len str + pos <=? len (t p)) with true
    by (symmetry; apply Z.leb_le; lia).
  simpl. do 2 f_equal. unfold len. lia.
Qed.

(** Where every window lies within the text, and the sums within [int], the
    matcher returns, and its answer is [win_in]. *)
Lemma matchesAny_win (p : phoneticData) (pos : Z) (cands : list string) :
  0 <= cur p ->
  Int.min_int <= cur p + pos <= Int.max_int ->
  Forall (fun str => cur p + len str <= Int.max_int
                     /\ cur p + pos + len str <= Int.max_int
                     /\ cur p + pos + len str <= len (t p)) cands ->
  matchesAny p pos cands = Ok (win_in p pos cands).
Proof.
  intros Hc Hp HF. unfold matchesAny, win_in.
  destruct cands as [|c0 cands0]; [reflexivity|].
  rewrite add_small by exact Hp.
  destruct (Z.ltb_spec (cur p + pos) 0) as [Hneg|Hpos].
  - replace (0 <=? cur p + pos) with false by (symmetry; apply Z.leb_gt; lia).
    reflexivity.
  - replace (0 <=? cur p + pos) with true by (symmetry; apply Z.leb_le; lia).
    rewrite andb_true_l.
    induction HF as [|str rest (Hm & Hm' & Hl) HF IH]; [reflexivity|].
    assert (Hs := len_nonneg str).
    cbn [matchesAny_range existsb].
    rewrite (add_small (cur p) (len str))
      by (pose proof min_int_small; lia).
    rewrite (add_small (cur p + len str) pos)
      by (pose proof min_int_small; lia).
    rewrite add_small by exact Hp.
    rewrite slice_window by lia. cbn [bind].
    destruct (String.eqb (window p pos (String.length str)) str);
      [reflexivity | exact IH].
Qed.

Lemma matchesAny_in_word (p : phoneticData) (pos : Z) (cands : list string) :
  in_word p -> -2 <= pos <= 6 -> near pos cands = true ->
  matchesAny p pos cands = Ok (win_in p pos cands).
Proof.
  intros (H0 & H6 & Hmax) Hpos Hnear.
  pose proof min_int_small as Hmin.
  apply matchesAny_win; [exact H0 | lia | ].
  - apply Forall_forall. intros str Hin.
    unfold near in Hnear. rewrite forallb_forall in Hnear.
    specialize (Hnear str Hin). apply andb_prop in Hnear. lia.
Qed.

(** Windows anchored at the start of the text. *)
Lemma matchesAny_anchor (p : phoneticData) (cands : list string) :
  in_word p -> near 0 cands = true ->
  matchesAny p (Int.neg (cur p)) cands = Ok (win_in p (- cur p) cands).
Proof.
  intros (H0 & H6 & Hmax) Hnear.
  pose proof min_int_small as Hmin.
  rewrite neg_small by lia.
  apply matchesAny_win; [exact H0 | lia | ].
  apply Forall_forall. intros str Hin.
  unfold near in Hnear. rewrite forallb_forall in Hnear.
  specialize (Hnear str Hin). apply andb_prop in Hnear. lia.
Qed.

Lemma andM_Ok (x y : bool) : Ok x &&& Ok y = Ok (x && y).
Proof. now destruct x. Qed.

Lemma orM_Ok (x y : bool) : Ok x ||| Ok y = Ok (x || y).
Proof. now destruct x. Qed.

Lemma notM_Ok (x : bool) : notM (Ok x) = Ok (negb x).
Proof. reflexivity. Qed.

(** Rewrites every call of the matcher at a cursor within the word to its
    answer, and collapses the short-circuit operators. *)
Ltac matcher H :=
  unfold isVowel;
  rewrite ?(matchesAny_anchor _ _ H) by reflexivity;
  rewrite ?(matchesAny_in_word _ _ _ H) by (first [lia | reflexivity]);
  repeat (first [rewrite notM_Ok | rewrite andM_Ok | rewrite orM_Ok]).

Section ConditionsOfC.

Variable p : phoneticData.
Hypothesis Hword : in_word p.

Lemma c_germanic_win : c_germanic p = Ok (applies rule1 p).
Proof. unfold c_germanic. matcher Hword. reflexivity. Qed.

Lemma c_caesar_win : c_caesar p = Ok (applies rule2 p).
Proof. unfold c_caesar. matcher Hword. reflexivity. Qed.

Lemma c_chia_win : c_chia p = Ok (applies rule3 p).
Proof. unfold c_chia. matcher Hword. reflexivity. Qed.

Lemma c_ch_win : c_ch p = Ok (win_in p 0 ["ch"]).
Proof. unfold c_ch. matcher Hword. reflexivity. Qed.

Lemma ch_michael_win :
  ch_michael p = Ok ((0 <? cur p) && win_in p 0 ["chae"]).
Proof. unfold ch_michael. matcher Hword. reflexivity. Qed.

Lemma ch_greek_win :
  ch_greek p
  = Ok ((cur p =? 0) && negb (win_in p 0 ["chore"])
        && win_in p 1 ["harac"; "haris"; "hor"; "hym"; "hia"; "hem"]).
Proof. unfold ch_greek. matcher Hword. reflexivity. Qed.

Lemma ch_kh_win :
  ch_kh p
  = Ok (win_in p (- cur p) ["van "; "von "; "sch"]
        || win_in p (-2) ["orches"; "archit"; "orchid"]
        || win_in p 2 ["t"; "s"]
        || ((win_in p (-1) ["a"; "e"; "o"; "u"] || (cur p =? 0))
            && win_in p 2 ["l"; "r"; "n"; "m"; "b"; "h"; "f"; "v"; "w"; " "])).
Proof. unfold ch_kh. matcher Hword. reflexivity. Qed.

Lemma ch_mc_win : ch_mc p = Ok (win_in p (- cur p) ["mc"]).
Proof. unfold ch_mc. matcher Hword. reflexivity. Qed.

Lemma c_cz_win : c_cz p = Ok (applies rule5 p).
Proof. unfold c_cz. matcher Hword. reflexivity. Qed.

Lemma c_cia_win : c_cia p = Ok (applies rule6 p).
Proof. unfold c_cia. matcher Hword. reflexivity. Qed.

(** The handler returns, and does what the first row that applies says. *)
Lemma c_fires : c p = Ok (fire (first_match p) p).
Proof.
  unfold c.
  rewrite c_germanic_win, c_caesar_win, c_chia_win, c_ch_win, c_cz_win,
    c_cia_win, ch_michael_win, ch_greek_win, ch_kh_win, ch_mc_win.
  unfold first_match, c_table. cbn [find bind].
  destruct (applies rule1 p); [reflexivity|].
  destruct (applies rule2 p); [reflexivity|].
  destruct (applies rule3 p); [reflexivity|].
  cbn [applies rule4a rule4b rule4c rule4d rule4e rule4f].
  destruct (win_in p 0 ["ch"]); cbn [andb].
  - destruct ((0 <? cur p) && win_in p 0 ["chae"]); [reflexivity|].
    destruct ((cur p =? 0) && negb (win_in p 0 ["chore"])
              && win_in p 1 ["harac"; "haris"; "hor"; "hym"; "hia"; "hem"]);
      [reflexivity|].
    match goal with
    | |- context [if ?x then Ok (add ["k"] p) else _] => destruct x
    end; [reflexivity|].
    destruct (0 <? cur p); cbn [andb bind]; [|reflexivity].
    destruct (win_in p (- cur p) ["mc"]); reflexivity.
  - destruct (applies rule5 p); [reflexivity|].
    destruct (applies rule6 p); reflexivity.
Qed.

End ConditionsOfC.

(** ** One step of the scan *)

Lemma fire_effect (p : phoneticData) (r : rule) :
  in_word p -> In r c_table ->
  t (fire (Some r) p) = t p
  /\ cur p + 1 <= cur (fire (Some r) p) <= cur p + 2
  /\ emitted p (fire (Some r) p).
Proof.
  intros (H0 & H6 & Hmax) Hin.
  pose proof min_int_small as Hmin.
  unfold c_table in Hin. cbn [In] in Hin.
  repeat (destruct Hin as [<- | Hin]); try contradiction;
    (split; [reflexivity|]; split;
     [cbn; rewrite add_small by lia; lia
     | right; eexists; eexists;
       split; [|split; [|split; reflexivity]]; cbn; tauto]).
Qed.

Lemma first_match_effect (p : phoneticData) :
  in_word p ->
  t (fire (first_match p) p) = t p
  /\ cur p <= cur (fire (first_match p) p) <= cur p + 2
  /\ emitted p (fire (first_match p) p).
Proof.
  intros H. destruct (first_match p) as [r|] eqn:Hr.
  - apply find_some in Hr. destruct Hr as [Hin _].
    destruct (fire_effect p r H Hin) as (Ht & Hc & He).
    repeat split; try assumption; lia.
  - cbn. repeat split; try lia. left. auto.
Qed.

Lemma in_word_at (p : phoneticData) (ch : ascii) :
  scanning p -> index (t p) (cur p) = Ok ch -> ch <> " "%char -> in_word p.
Proof.
  intros ([s Hs] & Hc & Hmax) Hi Hch.
  rewrite Hs in Hi. apply index_before_padding in Hi; [|exact Hch].
  unfold in_word. rewrite Hs in *. rewrite len_padded in *. lia.
Qed.

(** From a state of the scan with the cursor inside the text, the body of
    the loop returns: it leaves the text alone, moves the cursor forward by
    one to three bytes, not past the end, and emits at most once. *)
Lemma dispatch_step (p : phoneticData) :
  scanning p -> cur p < len (t p) ->
  exists p', dispatch p = Ok p'
    /\ t p' = t p
    /\ cur p + 1 <= cur p' <= cur p + 3
    /\ cur p' <= len (t p)
    /\ emitted p p'.
Proof.
  intros Hs Hlt.
  assert (Hs' := Hs). destruct Hs' as (_ & Hc & Hmax).
  pose proof min_int_small as Hmin.
  destruct (index_total (t p) (cur p)) as [next Hnext]; [lia|].
  unfold dispatch. rewrite Hnext. cbn [bind].
  destruct (byte_in next vowel_bytes) eqn:Hv.
  { destruct (cur p =? 0) eqn:Hz; cbn [bind].
    - eexists; split; [reflexivity|]. cbn.
      rewrite add_small by lia.
      repeat split; try lia.
      right. exists "a", "a". cbn. tauto.
    - eexists; split; [reflexivity|]. cbn.
      rewrite add_small by lia.
      repeat split; try lia. left. auto. }
  destruct (Ascii.eqb next "b") eqn:Hb.
  { apply Ascii.eqb_eq in Hb. subst next.
    assert (Hw : in_word p) by (apply (in_word_at p "b"); [assumption .. | discriminate]).
    destruct Hw as (_ & H6 & _).
    unfold b. cbn [add t cur set_codes].
    rewrite add_small by lia.
    destruct (index_total (t p) (cur p + 1)) as [ch Hch]; [lia|].
    rewrite Hch. cbn [bind].
    destruct (Ascii.eqb ch "b"); cbn [bind];
      (eexists; split; [reflexivity|]; cbn;
       rewrite ?(add_small (cur p) 1) by lia; rewrite ?add_small by lia;
       repeat split; try lia;
       right; exists "p", "p"; cbn; tauto). }
  destruct (Ascii.eqb next cedilla_byte) eqn:Hced.
  { cbn [bind ç]. eexists; split; [reflexivity|]. cbn.
    rewrite add_small by lia.
    repeat split; try lia. right. exists "s", "s". cbn. tauto. }
  destruct (Ascii.eqb next "c") eqn:Hcc.
  { apply Ascii.eqb_eq in Hcc. subst next.
    assert (Hw : in_word p) by (apply (in_word_at p "c"); [assumption .. | discriminate]).
    rewrite (c_fires p Hw). cbn [bind].
    destruct (first_match_effect p Hw) as (Ht & Hcur & Hem).
    destruct Hw as (_ & H6 & _).
    generalize dependent (fire (first_match p) p). intros q Ht Hcur Hem.
    eexists; split; [reflexivity|]. cbn.
    rewrite add_small by lia.
    repeat split; try lia; assumption. }
  cbn [bind]. eexists; split; [reflexivity|]. cbn.
  rewrite add_small by lia.
  repeat split; try lia. left. auto.
Qed.

(** ** The run of the loop *)

Lemma scanning_step (p p' : phoneticData) :
  scanning p -> cur p < len (t p) -> dispatch p = Ok p' ->
  scanning p' /\ t p' = t p /\ cur p < cur p' <= cur p + 3 /\ emitted p p'.
Proof.
  intros Hs Hlt Hd.
  destruct (dispatch_step p Hs Hlt) as (q & Hq & Ht & Hc & Hl & He).
  rewrite Hd in Hq. injection Hq as <-.
  destruct Hs as ([s Hs] & Hcur & Hmax).
  repeat split; try lia; try assumption.
  - exists s. congruence.
  - rewrite Ht. lia.
  - rewrite Ht. lia.
Qed.

(** An invariant of the loop body holds all along the run. *)
Lemma scans_invariant (I : phoneticData -> Prop) (p p' : phoneticData) :
  (forall q q', scanning q -> I q -> cur q < len (t q) ->
                dispatch q = Ok q' -> I q') ->
  scanning p -> I p -> scans p p' -> scanning p' /\ I p'.
Proof.
  intros Hstep Hs Hi Hrun.
  induction Hrun as [p | p q q' Hrun IH Hlt Hd]; [split; assumption|].
  destruct (IH Hs Hi) as [Hsq Hiq].
  split.
  - now apply (scanning_step q q').
  - now apply (Hstep q q').
Qed.

Lemma scans_trans (p q r : phoneticData) :
  scans p q -> scans q r -> scans p r.
Proof.
  intros Hpq Hqr. induction Hqr; [assumption|].
  eapply scans_next; [apply IHHqr; assumption | assumption | eassumption].
Qed.

(** With one unit of fuel per byte left, the loop runs to the end of the
    text. *)
Lemma scan_runs (fuel : nat) (p : phoneticData) :
  scanning p -> len (t p) - cur p <= Z.of_nat fuel ->
  exists p', scan fuel p = Ok p' /\ scans p p' /\ len (t p') <= cur p'.
Proof.
  revert p. induction fuel as [|fuel IH]; intros p Hs Hfuel.
  - exists p. cbn [scan].
    replace (cur p <? len (t p)) with false by (symmetry; apply Z.ltb_ge; lia).
    repeat split; [constructor | lia].
  - cbn [scan]. destruct (Z.ltb_spec (cur p) (len (t p))) as [Hlt|Hge].
    + destruct (dispatch_step p Hs Hlt) as (q & Hq & Ht & Hc & Hl & He).
      rewrite Hq. cbn [bind].
      destruct (scanning_step p q Hs Hlt Hq) as (Hsq & _).
      destruct (IH q Hsq) as (p' & Hp' & Hrun & Hend); [rewrite Ht; lia|].
      exists p'. repeat split; try assumption.
      eapply scans_trans; [|exact Hrun].
      eapply scans_next; [constructor | exact Hlt | exact Hq].
    + exists p. repeat split; [constructor | lia].
Qed.

(** A run of the loop is a run of the step relation. *)
Lemma scan_scans (fuel : nat) (p p' : phoneticData) :
  scan fuel p = Ok p' -> scans p p'.
Proof.
  revert p. induction fuel as [|fuel IH]; intros p; cbn [scan].
  - destruct (cur p <? len (t p)); [discriminate|].
    intros [= <-]. constructor.
  - destruct (cur p <? len (t p)) eqn:Hlt; [|intros [= <-]; constructor].
    destruct (dispatch p) as [q| |] eqn:Hq; cbn [bind]; try discriminate.
    intros Hrun. eapply scans_trans; [|apply IH; exact Hrun].
    eapply scans_next; [constructor | apply Z.ltb_lt; exact Hlt | exact Hq].
Qed.

(** ** Before the loop *)

Lemma substring_one (t0 : string) (i : nat) (ch : ascii) :
  String.get i t0 = Some ch ->
  String.substring i 1 t0 = String ch EmptyString.
Proof.
  revert i. induction t0 as [|x t0 IH]; intros i H; [discriminate|].
  destruct i as [|i]; cbn in *.
  - injection H as ->. now destruct t0.
  - now apply IH.
Qed.

(** A one-byte candidate matches at the cursor exactly when the byte at the
    cursor is that byte. *)
Lemma win_in_byte (p : phoneticData) (ch : ascii) :
  0 <= cur p < len (t p) ->
  (win_in p 0 [String ch EmptyString] = true <-> index (t p) (cur p) = Ok ch).
Proof.
  intros Hc. unfold win_in. cbn [existsb String.length].
  replace (0 <=? cur p + 0) with true by (symmetry; apply Z.leb_le; lia).
  rewrite orb_false_r, andb_true_l, index_Ok.
  unfold window. rewrite Z.add_0_r. split.
  - intros H. split; [exact Hc|].
    pose proof (window_bytes (t p) (String ch EmptyString) (Z.to_nat (cur p)) 0 H)
      as Hb.
    rewrite Nat.add_0_r in Hb. apply Hb. cbn. lia.
  - intros [_ H]. rewrite (substring_one _ _ _ H). apply String.eqb_refl.
Qed.

(** A window that matches starts with the first byte of some candidate. *)
Lemma win_in_first (p : phoneticData) (off : Z) (cands : list string) :
  win_in p off cands = true -> cands <> [] ->
  Forall (fun str => str <> EmptyString) cands ->
  exists str ch, In str cands /\ String.get 0 str = Some ch
                 /\ String.get (Z.to_nat (cur p + off)) (t p) = Some ch.
Proof.
  intros H Hnil Hne. unfold win_in in H.
  destruct cands as [|c0 cands0] eqn:Hcands; [congruence|].
  rewrite <- Hcands in *. clear Hcands.
  apply andb_prop in H. destruct H as [_ H].
  apply existsb_exists in H. destruct H as (str & Hin & Heq).
  rewrite Forall_forall in Hne. specialize (Hne str Hin).
  destruct str as [|ch str]; [congruence|].
  exists (String ch str), ch. repeat split; [assumption|].
  pose proof (window_bytes (t p) (String ch str) (Z.to_nat (cur p + off)) 0 Heq)
    as Hb.
  rewrite Nat.add_0_r in Hb. rewrite Hb; [reflexivity | cbn; lia].
Qed.

Lemma skip_silent_initial (s : string) :
  skip_silent (initial s)
  = Ok (if win_in (initial s) 0 silent_clusters
        then skip 2 (initial s) else initial s).
Proof.
  unfold skip_silent.
  rewrite matchesAny_win;
    [cbn [bind]; now destruct (win_in (initial s) 0 silent_clusters)
    | cbn; lia | | ].
  - pose proof max_int_large. pose proof min_int_small. cbn. lia.
  - pose proof max_int_large. pose proof (len_nonneg s).
    unfold silent_clusters. cbn [initial t cur]. rewrite len_padded.
    repeat constructor; cbn; lia.
Qed.

Lemma initial_x_near_start (p : phoneticData) :
  0 <= cur p <= 2 -> 5 <= len (t p) ->
  initial_x p = Ok (if win_in p 0 ["x"] then add ["s"] p else p).
Proof.
  intros Hc Hl. unfold initial_x.
  pose proof max_int_large. pose proof min_int_small.
  rewrite matchesAny_win;
    [cbn [bind]; now destruct (win_in p 0 ["x"]) | lia | lia | ].
  repeat constructor; cbn; lia.
Qed.

(** The state on entry to the loop: the cursor at 0, or at 2 after a silent
    cluster, and the codes empty or both ["s"]. *)
Lemma prescan_state (s : string) :
  exists p0, prescan s = Ok p0
    /\ t p0 = s ++ padding
    /\ cur p0 = (if win_in (initial s) 0 silent_clusters then 2 else 0)
    /\ ((metaphone1 p0 = "" /\ metaphone2 p0 = "")
        \/ (metaphone1 p0 = "s" /\ metaphone2 p0 = "s")).
Proof.
  unfold prescan. rewrite skip_silent_initial. cbn [bind].
  pose proof (len_nonneg s) as Hs.
  destruct (win_in (initial s) 0 silent_clusters).
  - rewrite initial_x_near_start;
      [| cbn; lia | cbn [skip set_cur t initial]; rewrite len_padded; lia].
    destruct (win_in (skip 2 (initial s)) 0 ["x"]);
      eexists; (split; [reflexivity|]); cbn; auto.
  - rewrite initial_x_near_start;
      [| cbn; lia | cbn [t initial]; rewrite len_padded; lia].
    destruct (win_in (initial s) 0 ["x"]);
      eexists; (split; [reflexivity|]); cbn; auto.
Qed.

Lemma prescan_scanning (s : string) (p0 : phoneticData) :
  representable s -> prescan s = Ok p0 ->
  scanning p0 /\ t p0 = s ++ padding.
Proof.
  intros Hr Hp. destruct (prescan_state s) as (q & Hq & Ht & Hc & _).
  rewrite Hp in Hq. injection Hq as <-.
  split; [|exact Ht]. unfold scanning. rewrite Ht.
  unfold representable in Hr. pose proof (len_nonneg s).
  rewrite len_padded in *.
  repeat split; [now exists s | | | lia];
    destruct (win_in (initial s) 0 silent_clusters); lia.
Qed.

Lemma scan_more_fuel (fuel k : nat) (p p' : phoneticData) :
  scan fuel p = Ok p' -> scan (fuel + k) p = Ok p'.
Proof.
  revert p. induction fuel as [|fuel IH]; intros p; cbn [scan Nat.add].
  - destruct (cur p <? len (t p)) eqn:Hlt; [discriminate|].
    intros H. destruct k; cbn [scan]; now rewrite Hlt.
  - destruct (cur p <? len (t p)); [|auto].
    destruct (dispatch p) as [q| |]; cbn [bind]; try discriminate.
    apply IH.
Qed.

Lemma visited_scanning (s : string) (p : phoneticData) :
  representable s -> visited s p -> scanning p /\ t p = s ++ padding.
Proof.
  intros Hr (p0 & Hp0 & Hrun).
  destruct (prescan_scanning s p0 Hr Hp0) as [Hs Ht].
  apply (scans_invariant (fun q => t q = s ++ padding) p0 p); try assumption.
  intros q q' Hq Hi Hlt Hd.
  destruct (scanning_step q q' Hq Hlt Hd) as (_ & Ht' & _). congruence.
Qed.

(** The encoding of a representable input: the checks before the loop
    return, the loop runs to the end of the text, and the codes of the last
    state are the result. *)
Lemma Metaphone_runs (s : string) :
  representable s ->
  exists p0 p',
    prescan s = Ok p0
    /\ scan (String.length (s ++ padding)) p0 = Ok p'
    /\ scans p0 p'
    /\ Metaphone s = Ok (metaphone1 p', metaphone2 p').
Proof.
  intros Hr.
  destruct (prescan_state s) as (p0 & Hp0 & _).
  destruct (prescan_scanning s p0 Hr Hp0) as [Hs Ht].
  destruct (scan_runs (String.length (s ++ padding)) p0 Hs)
    as (p' & Hp' & Hrun & _).
  { rewrite Ht. unfold len. destruct Hs as (_ & Hc & _). lia. }
  exists p0, p'. repeat split; try assumption.
  unfold Metaphone, Metaphone_fuel. rewrite Hp0. cbn [bind]. now rewrite Hp'.
Qed.

(** ** Totality *)

(** C1. For every input whose padded text is a Go string, the empty input
    included, [Metaphone] returns a pair of strings: no index or slice
    expression leaves the padded text, so no read panics, and the loop ends
    within one iteration per byte (more fuel changes nothing).  A window
    that would start before the text is answered [false] by the guard of the
    matcher, without a read. *)
Theorem Metaphone_total (s : string) :
  representable s ->
  (exists m1 m2, Metaphone s = Ok (m1, m2)
     /\ forall k, Metaphone_fuel (String.length (s ++ padding) + k) s
                  = Ok (m1, m2))
  /\ (forall p, visited s p -> cur p < len (t p) ->
        exists p', dispatch p = Ok p')
  /\ (forall p pos cands, cands <> [] -> Int.add (cur p) pos < 0 ->
        matchesAny p pos cands = Ok false)
  /\ Metaphone "" = Ok ("", "").
Proof.
  intros Hr. split; [|split; [|split]].
  - destruct (Metaphone_runs s Hr) as (p0 & p' & Hp0 & Hp' & _ & Hm).
    exists (metaphone1 p'), (metaphone2 p').
    split; [exact Hm|].
    intros k. unfold Metaphone_fuel. rewrite Hp0. cbn [bind].
    now rewrite (scan_more_fuel _ k _ _ Hp').
  - intros p Hv Hlt. destruct (visited_scanning s p Hr Hv) as [Hs _].
    destruct (dispatch_step p Hs Hlt) as (p' & Hp' & _). now exists p'.
  - intros p pos cands Hne Hneg. unfold matchesAny.
    destruct cands; [congruence|].
    now replace (Int.add (cur p) pos <? 0) with true
      by (symmetry; apply Z.ltb_lt; exact Hneg).
  - reflexivity.
Qed.

Lemma Metaphone_total_witness :
  representable "caesar" /\ exists m1 m2, Metaphone "caesar" = Ok (m1, m2).
Proof.
  assert (Hr : representable "caesar") by (vm_compute; discriminate).
  split; [exact Hr|].
  destruct (Metaphone_total "caesar" Hr) as ((m1 & m2 & Hm & _) & _).
  exists m1, m2. exact Hm.
Defined.

(** ** The checks before the loop *)

Lemma get_padded_not_space (s : string) (i : nat) (ch : ascii) :
  ch <> " "%char ->
  (String.get i (s ++ padding) = Some ch <-> String.get i s = Some ch).
Proof.
  intros Hch. destruct (Nat.lt_ge_cases i (String.length s)) as [Hlt|Hge].
  - now rewrite get_append_left.
  - rewrite (get_out_of_range s i Hge).
    destruct (Nat.lt_ge_cases i (String.length s + 5)) as [Hlt5|Hge5].
    + rewrite get_padding by lia. split; [congruence | discriminate].
    + rewrite get_out_of_range; [reflexivity|].
      rewrite length_append. cbn. lia.
Qed.

(** On the padded text, the matcher finds a silent cluster at 0 exactly when
    the word begins with one. *)
Lemma win_in_begins_silent (s : string) :
  win_in (initial s) 0 silent_clusters = begins_silent s.
Proof.
  unfold win_in, begins_silent, silent_clusters, window.
  cbn [initial cur t Z.add Z.to_nat Z.leb Z.compare andb existsb String.length].
  destruct s as [|x [|y s]].
  - reflexivity.
  - cbn. destruct x as [[] [] [] [] [] [] [] []]; reflexivity.
  - cbn [append String.substring String.prefix].
    assert (Hsub : String.substring 0 0 (s ++ padding) = "")
      by (now destruct (s ++ padding)).
    rewrite Hsub.
    assert (Heq : forall u v : ascii,
               String.eqb (String x (String y "")) (String u (String v ""))
               = if ascii_dec u x then if ascii_dec v y then true else false
                 else false).
    { intros u v. cbn.
      destruct (ascii_dec u x) as [->|Hn].
      - rewrite Ascii.eqb_refl.
        destruct (ascii_dec v y) as [->|Hn'].
        + now rewrite Ascii.eqb_refl.
        + destruct (Ascii.eqb_spec y v); congruence.
      - destruct (Ascii.eqb_spec x u); congruence. }
    assert (Hpre : String.prefix "" s = true) by (now destruct s).
    rewrite !Heq, !Hpre.
    repeat match goal with
           | |- context [ascii_dec ?u ?v] => destruct (ascii_dec u v)
           end; reflexivity.
Qed.

(** C2, as stated, fails: the encoding of ["gnx"] emits ["s"] before the
    loop although its first byte is ['g'], because the check for ['x'] reads
    the byte at the cursor after the silent cluster has been skipped. *)
Lemma initial_x_after_silent_cluster :
  ~ (emits_initial_s "gnx" <-> String.get 0 "gnx" = Some "x"%char).
Proof.
  intros [H _].
  assert (He : emits_initial_s "gnx").
  { exists (skip 2 (initial "gnx")), (add ["s"] (skip 2 (initial "gnx"))).
    repeat split; reflexivity. }
  specialize (H He). discriminate H.
Qed.

(** C2, amended.  For every input, the emission of ["s"] to both codes
    before the loop occurs if and only if the byte of the input at the
    cursor is ['x'], where the cursor is 0 when the input does not begin
    with a silent cluster and 2 when it does; the emission does not advance
    the cursor, and without it the codes stay as they were. *)
Theorem initial_x_at_cursor (s : string) :
  exists p0 p,
    skip_silent (initial s) = Ok p0 /\ initial_x p0 = Ok p
    /\ cur p0 = (if begins_silent s then 2 else 0)
    /\ cur p = cur p0
    /\ (emits_s p0 p
        <-> String.get (Z.to_nat (cur p0)) s = Some "x"%char)
    /\ (emits_s p0 p
        \/ (metaphone1 p = metaphone1 p0 /\ metaphone2 p = metaphone2 p0)).
Proof.
  rewrite <- win_in_begins_silent.
  pose proof (len_nonneg s) as Hlen.
  set (p0 := if win_in (initial s) 0 silent_clusters
             then skip 2 (initial s) else initial s).
  assert (Ht : t p0 = s ++ padding)
    by (unfold p0; now destruct (win_in (initial s) 0 silent_clusters)).
  assert (Hc : cur p0 = if win_in (initial s) 0 silent_clusters then 2 else 0)
    by (unfold p0; now destruct (win_in (initial s) 0 silent_clusters)).
  assert (Hc02 : 0 <= cur p0 <= 2)
    by (rewrite Hc; destruct (win_in (initial s) 0 silent_clusters); lia).
  assert (Hl : 5 <= len (t p0)) by (rewrite Ht, len_padded; lia).
  exists p0, (if win_in p0 0 ["x"] then add ["s"] p0 else p0).
  split; [apply skip_silent_initial|].
  split; [now apply initial_x_near_start|].
  split; [exact Hc|].
  split; [now destruct (win_in p0 0 ["x"])|].
  pose proof (win_in_byte p0 "x" ltac:(lia)) as Hx.
  rewrite index_Ok, Ht in Hx.
  rewrite get_padded_not_space in Hx by discriminate.
  destruct (win_in p0 0 ["x"]) eqn:Hw.
  - assert (He : emits_s p0 (add ["s"] p0)) by (split; reflexivity).
    split; [|left; exact He].
    split; [intros _; now apply Hx | intros _; exact He].
  - split; [|right; split; reflexivity].
    split.
    + intros [He _]. cbn in He. exfalso.
      assert (Hlen1 : String.length (metaphone1 p0)
                      = String.length (metaphone1 p0 ++ "s"))
        by (now rewrite <- He).
      rewrite length_append in Hlen1. cbn in Hlen1. lia.
    + intros Hg. assert (Hf : false = true); [|discriminate Hf].
      apply Hx. split; [rewrite len_padded; lia | exact Hg].
Qed.

(** ** The cedilla handler *)

(** The handler itself emits ["s"] to both codes and leaves the cursor. *)
Lemma cedilla_handler (p : phoneticData) :
  exists p', ç p = Ok p'
    /\ metaphone1 p' = metaphone1 p ++ "s"
    /\ metaphone2 p' = metaphone2 p ++ "s"
    /\ cur p' = cur p /\ t p' = t p.
Proof. exists (add ["s"] p). repeat split. Qed.

(** The loop reaches the handler on the single byte 231. *)
Lemma cedilla_byte_dispatch (p : phoneticData) :
  scanning p -> index (t p) (cur p) = Ok cedilla_byte ->
  exists p', dispatch p = Ok p'
    /\ metaphone1 p' = metaphone1 p ++ "s"
    /\ metaphone2 p' = metaphone2 p ++ "s"
    /\ cur p' = cur p + 1.
Proof.
  intros (_ & Hc & Hmax) Hi. pose proof min_int_small.
  assert (Hlt : cur p < len (t p)) by (apply index_Ok in Hi; lia).
  unfold dispatch. rewrite Hi. cbn [bind].
  replace (byte_in cedilla_byte vowel_bytes) with false by reflexivity.
  replace (Ascii.eqb cedilla_byte "b") with false by reflexivity.
  rewrite Ascii.eqb_refl. cbn [ç bind].
  eexists; split; [reflexivity|]. cbn.
  rewrite add_small by lia. auto.
Qed.

(** C3.  The Go string ["ç"] is the two bytes 195, 167 of its UTF-8
    encoding; the [switch] compares single bytes with 231, so neither byte
    reaches the handler and the encoding is the empty pair, where the
    claim expects ["s"], ["s"]. *)
Theorem cedilla_utf8_not_encoded :
  Metaphone cedilla_utf8 = Ok ("", "")
  /\ Metaphone (String cedilla_byte "") = Ok ("s", "s").
Proof. split; reflexivity. Qed.

(** ** The [c] handler *)

(** C4.  The handler is an ordered decision list: at a cursor within the
    word it returns and does what the first row of the table that applies
    says, and nothing of any later row.  For ["chia"] rule 3 is that row,
    although the ["ch"] rule 4b applies as well: the handler emits ["k"] to
    both codes and skips one byte more, and the encoding is ["k"], ["k"]. *)
Theorem c_first_match_wins :
  (forall p, in_word p -> c p = Ok (fire (first_match p) p))
  /\ first_match (initial "chia") = Some rule3
  /\ applies rule4b (initial "chia") = true
  /\ c (initial "chia")
     = Ok (mkPhoneticData ("chia" ++ padding) 1 false "k" "k")
  /\ Metaphone "chia" = Ok ("k", "k").
Proof.
  split; [exact c_fires|]. repeat split; reflexivity.
Qed.

Lemma c_first_match_wins_witness :
  in_word (initial "chianti")
  /\ c (initial "chianti")
     = Ok (fire (first_match (initial "chianti")) (initial "chianti")).
Proof.
  assert (Hw : in_word (initial "chianti"))
    by (repeat split; vm_compute; discriminate).
  split; [exact Hw|].
  exact (proj1 c_first_match_wins (initial "chianti") Hw).
Defined.

(** Under the ["cz"] window none of the rules 1 to 4 can apply. *)
Lemma cz_excludes_rules_1_to_4 (p : phoneticData) :
  win_in p 0 ["cz"] = true ->
  applies rule1 p = false /\ applies rule2 p = false
  /\ applies rule3 p = false /\ win_in p 0 ["ch"] = false.
Proof.
  intros Hcz.
  assert (Hz : String.get (Z.to_nat (cur p + 0) + 1) (t p) = Some "z"%char).
  { unfold win_in in Hcz. cbn [existsb] in Hcz.
    apply andb_prop in Hcz. destruct Hcz as [_ Hcz].
    rewrite orb_false_r in Hcz.
    apply (window_bytes (t p) "cz" _ 1 Hcz). cbn. lia. }
  assert (H0 : 0 <= cur p + 0).
  { unfold win_in in Hcz. apply andb_prop in Hcz. lia. }
  assert (Hno : forall off str k ch,
             win_in p off [str] = true ->
             (k < String.length str)%nat -> String.get k str = Some ch ->
             ch <> "z"%char ->
             (Z.to_nat (cur p + off) + k = Z.to_nat (cur p + 0) + 1)%nat ->
             False).
  { intros off str k ch Hw Hk Hg Hch Hpos.
    unfold win_in in Hw. cbn [existsb] in Hw.
    apply andb_prop in Hw. destruct Hw as [_ Hw].
    rewrite orb_false_r in Hw.
    pose proof (window_bytes (t p) str _ k Hw Hk) as Hb.
    rewrite Hpos, Hz, Hg in Hb. congruence. }
  repeat split.
  - cbn [applies rule1].
    destruct (1 <? cur p) eqn:H1; [|reflexivity].
    destruct (win_in p (-1) ["ach"]) eqn:Hach;
      [|now rewrite andb_false_r].
    exfalso. apply (Hno (-1) "ach" 2%nat "h"%char Hach);
      [cbn; lia | reflexivity | discriminate | lia].
  - cbn [applies rule2].
    destruct (win_in p 0 ["caesar"]) eqn:Hc; [|now rewrite andb_false_r].
    exfalso. apply (Hno 0 "caesar" 1%nat "a"%char Hc);
      [cbn; lia | reflexivity | discriminate | lia].
  - cbn [applies rule3].
    destruct (win_in p 0 ["chia"]) eqn:Hc; [|reflexivity].
    exfalso. apply (Hno 0 "chia" 1%nat "h"%char Hc);
      [cbn; lia | reflexivity | discriminate | lia].
  - destruct (win_in p 0 ["ch"]) eqn:Hc; [|reflexivity].
    exfalso. apply (Hno 0 "ch" 1%nat "h"%char Hc);
      [cbn; lia | reflexivity | discriminate | lia].
Qed.

(** C5.  Whenever the loop invokes the [c] handler (the byte at the cursor
    is ['c']), none of the rules 1 to 4 applies, the two bytes at the cursor
    are ["cz"] and the four bytes from two before the cursor are not
    ["wicz"], the handler appends ["s"] to the primary code and ["x"] to the
    secondary code and skips one byte more. *)
Theorem c_rule5 (p : phoneticData) :
  scanning p -> index (t p) (cur p) = Ok "c"%char ->
  applies rule1 p = false -> applies rule2 p = false ->
  applies rule3 p = false -> win_in p 0 ["ch"] = false ->
  win_in p 0 ["cz"] = true -> win_in p (-2) ["wicz"] = false ->
  exists p', c p = Ok p'
    /\ metaphone1 p' = metaphone1 p ++ "s"
    /\ metaphone2 p' = metaphone2 p ++ "x"
    /\ cur p' = cur p + 1
    /\ t p' = t p.
Proof.
  intros Hs Hi H1 H2 H3 H4 Hcz Hwicz.
  assert (Hw : in_word p)
    by (apply (in_word_at p "c"); [assumption .. | discriminate]).
  assert (Hfirst : first_match p = Some rule5).
  { unfold first_match, c_table. cbn [find].
    rewrite H1, H2, H3.
    cbn [applies rule4a rule4b rule4c rule4d rule4e rule4f rule5].
    rewrite H4, Hcz, Hwicz. reflexivity. }
  exists (fire (Some rule5) p).
  rewrite (c_fires p Hw), Hfirst.
  destruct Hw as (H0 & H6 & Hmax). pose proof min_int_small.
  repeat split. cbn. rewrite add_small by lia. reflexivity.
Qed.

Lemma c_rule5_witness :
  exists p', c (initial "czerny") = Ok p'
    /\ metaphone1 p' = "s" /\ metaphone2 p' = "x" /\ cur p' = 1.
Proof.
  destruct (c_rule5 (initial "czerny")) as (p' & Hc & H1 & H2 & H3 & _);
    try reflexivity.
  - repeat split; [now exists "czerny" | vm_compute; discriminate ..].
  - exists p'. repeat split; assumption.
Defined.

(** ** Bytes without a handler *)

Lemma all_bytes_get (f : ascii -> bool) (s : string) (i : nat) (ch : ascii) :
  all_bytes f s = true -> String.get i s = Some ch -> f ch = true.
Proof.
  revert i. induction s as [|x s IH]; intros i Hall Hg; [discriminate|].
  cbn in Hall. apply andb_prop in Hall. destruct Hall as [Hx Hall].
  destruct i as [|i]; cbn in Hg.
  - now injection Hg as <-.
  - now apply (IH i).
Qed.

Lemma padded_byte (f : ascii -> bool) (s : string) (i : Z) (ch : ascii) :
  all_bytes f s = true -> index (s ++ padding) i = Ok ch ->
  f ch = true \/ ch = " "%char.
Proof.
  intros Hall Hi. apply index_Ok in Hi. destruct Hi as [Hr Hg].
  rewrite len_padded in Hr. unfold len in Hr.
  destruct (Nat.lt_ge_cases (Z.to_nat i) (String.length s)) as [Hlt|Hge].
  - rewrite get_append_left in Hg by exact Hlt.
    left. now apply (all_bytes_get f s (Z.to_nat i)).
  - rewrite get_padding in Hg by lia. right. congruence.
Qed.

Lemma upper_unhandled (ch : ascii) : is_upper ch = true -> unhandled ch = true.
Proof.
  destruct ch as [[] [] [] [] [] [] [] []]; intros H;
    first [reflexivity | discriminate H].
Qed.

(** A byte without a handler only moves the cursor by one. *)
Lemma dispatch_unhandled (p : phoneticData) (ch : ascii) :
  scanning p -> index (t p) (cur p) = Ok ch -> unhandled ch = true ->
  dispatch p = Ok (set_cur (cur p + 1) p).
Proof.
  intros (_ & Hc & Hmax) Hi Hu. pose proof min_int_small.
  assert (Hlt : cur p < len (t p)) by (apply index_Ok in Hi; lia).
  unfold dispatch. rewrite Hi. cbn [bind].
  unfold unhandled in Hu. apply negb_true_iff in Hu.
  do 3 (apply orb_false_elim in Hu; destruct Hu as [Hu ?]).
  repeat match goal with H : _ = false |- _ => rewrite H; clear H end.
  cbn [bind]. now rewrite add_small by lia.
Qed.

Lemma upper_not_silent (s : string) :
  all_bytes is_upper s = true -> begins_silent s = false.
Proof.
  intros Hall. destruct s as [|x s]; [reflexivity|].
  cbn in Hall. apply andb_prop in Hall. destruct Hall as [Hx _].
  unfold begins_silent, silent_clusters. cbn [existsb String.prefix].
  repeat match goal with
         | |- context [ascii_dec ?u x] =>
             destruct (ascii_dec u x) as [<-|]; [discriminate Hx|]
         end.
  reflexivity.
Qed.

(** ** Case sensitivity *)

(** C6.  For every input of uppercase letters only, ['A'] to ['Z'],
    [Metaphone] returns the pair of empty strings: neither the check for a
    silent cluster, nor the check for an initial ['x'], nor any case of the
    [switch] matches an uppercase byte. *)
Theorem uppercase_encodes_to_nothing (s : string) :
  representable s -> all_bytes is_upper s = true ->
  Metaphone s = Ok ("", "").
Proof.
  intros Hr Hall.
  pose proof (len_nonneg s) as Hlen.
  assert (Hsil : win_in (initial s) 0 silent_clusters = false)
    by (rewrite win_in_begins_silent; now apply upper_not_silent).
  assert (Hx : win_in (initial s) 0 ["x"] = false).
  { destruct (win_in (initial s) 0 ["x"]) eqn:Hw; [|reflexivity].
    apply win_in_byte in Hw; [|cbn [initial cur t]; rewrite len_padded; lia].
    destruct (padded_byte is_upper s 0 "x" Hall Hw) as [Hu|Hsp];
      discriminate. }
  assert (Hpre : prescan s = Ok (initial s)).
  { unfold prescan. rewrite skip_silent_initial, Hsil. cbn [bind].
    rewrite initial_x_near_start, Hx;
      [reflexivity | cbn; lia | cbn [initial t]; rewrite len_padded; lia]. }
  destruct (prescan_scanning s _ Hr Hpre) as [Hs Ht].
  destruct (scan_runs (String.length (s ++ padding)) (initial s) Hs)
    as (p' & Hp' & Hrun & _).
  { cbn [initial t cur]. unfold len. lia. }
  unfold Metaphone, Metaphone_fuel. rewrite Hpre. cbn [bind]. rewrite Hp'.
  cbn [bind].
  destruct (scans_invariant
              (fun q => t q = s ++ padding
                        /\ metaphone1 q = "" /\ metaphone2 q = "")
              (initial s) p') as (_ & _ & -> & ->);
    [ | exact Hs | now repeat split | exact Hrun | reflexivity].
  intros q q' Hq (Htq & H1 & H2) Hlt Hd.
  destruct (index_total (t q) (cur q)) as [ch Hch];
    [destruct Hq as (_ & Hc & _); lia|].
  assert (Hu : unhandled ch = true).
  { rewrite Htq in Hch.
    destruct (padded_byte is_upper s _ ch Hall Hch) as [Hup| ->];
      [now apply upper_unhandled | reflexivity]. }
  rewrite (dispatch_unhandled q ch Hq Hch Hu) in Hd.
  injection Hd as <-. cbn. auto.
Qed.

Lemma uppercase_encodes_to_nothing_witness : Metaphone "SMITH" = Ok ("", "").
Proof.
  apply uppercase_encodes_to_nothing; [vm_compute; discriminate | reflexivity].
Defined.

(** ** The vowel case and the cursor *)

Lemma scans_cursor (p p' : phoneticData) :
  scanning p -> scans p p' -> cur p <= cur p'.
Proof.
  intros Hs Hrun.
  apply (scans_invariant (fun q => cur p <= cur q) p p'); try assumption; [|lia].
  intros q q' Hq Hle Hlt Hd.
  destruct (scanning_step q q' Hq Hlt Hd) as (_ & _ & Hc & _). lia.
Qed.

(** C7.  A vowel at the cursor appends ["a"] to both codes if and only if
    the cursor is 0, and appends nothing at any other position; the cursor
    then moves by one.  For an input that begins with a silent cluster the
    loop starts at cursor 2 and every state it visits has its cursor at 2 or
    beyond, so the emission at cursor 0 never happens. *)
Theorem vowel_only_at_cursor_zero :
  (forall p ch,
      scanning p -> index (t p) (cur p) = Ok ch ->
      byte_in ch vowel_bytes = true ->
      exists p', dispatch p = Ok p'
        /\ cur p' = cur p + 1
        /\ ((cur p = 0 /\ metaphone1 p' = metaphone1 p ++ "a"
                       /\ metaphone2 p' = metaphone2 p ++ "a")
            \/ (cur p <> 0 /\ metaphone1 p' = metaphone1 p
                           /\ metaphone2 p' = metaphone2 p)))
  /\ (forall s,
        representable s -> begins_silent s = true ->
        (exists p0, prescan s = Ok p0 /\ cur p0 = 2)
        /\ forall p, visited s p -> 2 <= cur p).
Proof.
  split.
  - intros p ch (_ & Hc & Hmax) Hi Hv. pose proof min_int_small.
    assert (Hlt : cur p < len (t p)) by (apply index_Ok in Hi; lia).
    unfold dispatch. rewrite Hi. cbn [bind]. rewrite Hv.
    destruct (Z.eqb_spec (cur p) 0) as [Hz|Hnz]; cbn [bind].
    + eexists; split; [reflexivity|]. cbn.
      rewrite add_small by lia. split; [reflexivity|]. left. auto.
    + eexists; split; [reflexivity|]. cbn.
      rewrite add_small by lia. split; [reflexivity|]. right. auto.
  - intros s Hr Hb.
    destruct (prescan_state s) as (p0 & Hp0 & Ht & Hc & _).
    rewrite win_in_begins_silent, Hb in Hc.
    split; [now exists p0|].
    intros p (q0 & Hq0 & Hrun). rewrite Hp0 in Hq0. injection Hq0 as <-.
    destruct (prescan_scanning s p0 Hr Hp0) as [Hs _].
    pose proof (scans_cursor p0 p Hs Hrun). lia.
Qed.

Lemma vowel_only_at_cursor_zero_witness :
  (exists p', dispatch (initial "a") = Ok p' /\ cur p' = 1)
  /\ (exists p0, prescan "knee" = Ok p0 /\ cur p0 = 2).
Proof.
  split.
  - destruct (proj1 vowel_only_at_cursor_zero (initial "a") "a"%char)
      as (p' & Hd & Hc & _); [| reflexivity | reflexivity | ].
    + repeat split; [now exists "a" | vm_compute; discriminate ..].
    + exists p'. split; assumption.
  - apply (proj2 vowel_only_at_cursor_zero "knee");
      [vm_compute; discriminate | reflexivity].
Defined.

(** C8.  The cursor only increases.  The loop is entered with the cursor
    at 0, or at 2 when the input begins with a silent cluster; from every
    state the loop visits, the body returns with the cursor strictly
    larger; between any visited state and a later one the cursor has not
    decreased; and a skip by a positive amount, within [int], adds exactly
    that amount, every row of the [c] table skipping by a positive one. *)
Theorem cursor_only_increases (s : string) :
  representable s ->
  (exists p0, prescan s = Ok p0
     /\ cur p0 = (if begins_silent s then 2 else 0))
  /\ (forall p, visited s p -> cur p < len (t p) ->
        exists p', dispatch p = Ok p' /\ cur p < cur p')
  /\ (forall p p', visited s p -> scans p p' -> cur p <= cur p')
  /\ (forall p n, 0 < n -> Int.min_int <= cur p -> cur p + n <= Int.max_int ->
        cur (skip n p) = cur p + n /\ cur p < cur (skip n p))
  /\ Forall (fun r => 0 < extra r) c_table.
Proof.
  intros Hr. split; [|split; [|split; [|split]]].
  - destruct (prescan_state s) as (p0 & Hp0 & _ & Hc & _).
    rewrite win_in_begins_silent in Hc. now exists p0.
  - intros p Hv Hlt. destruct (visited_scanning s p Hr Hv) as [Hs _].
    destruct (dispatch_step p Hs Hlt) as (p' & Hp' & _ & Hc & _).
    exists p'. split; [exact Hp' | lia].
  - intros p p' Hv Hrun. destruct (visited_scanning s p Hr Hv) as [Hs _].
    now apply scans_cursor.
  - intros p n Hn Hmin Hmax. cbn. rewrite add_small by lia. lia.
  - repeat constructor.
Qed.

Lemma cursor_only_increases_witness :
  exists p0, prescan "wrbbc" = Ok p0 /\ cur p0 = 2.
Proof.
  apply (proj1 (cursor_only_increases "wrbbc" ltac:(vm_compute; discriminate))).
Defined.

(** ** Determinism *)

(** C9.  The pair [Metaphone] returns depends on the input alone: whatever
    the standard output holds when the call is made, the call returns the
    same pair, and a second call with the same input, made after the first
    has written its trace line, returns that pair again. *)
Theorem Metaphone_deterministic (s out out' : string) :
  representable s ->
  exists r,
    Metaphone s = Ok r
    /\ returned (Metaphone_call s out) = Ok r
    /\ returned (Metaphone_call s out') = Ok r
    /\ exists out1 out2,
         Metaphone_call s out = Ok (r, out1)
         /\ Metaphone_call s out1 = Ok (r, out2).
Proof.
  intros Hr.
  destruct (Metaphone_runs s Hr) as (_ & p' & _ & _ & _ & Hm).
  exists (metaphone1 p', metaphone2 p').
  unfold returned, Metaphone_call. rewrite Hm. cbn [bind fst].
  repeat split. eexists. eexists. split; reflexivity.
Qed.

Lemma Metaphone_deterministic_witness :
  exists r, returned (Metaphone_call "bach" "") = Ok r
            /\ returned (Metaphone_call "bach" "earlier output") = Ok r.
Proof.
  destruct (Metaphone_deterministic "bach" "" "earlier output")
    as (r & _ & H1 & H2 & _); [vm_compute; discriminate|].
  exists r. split; assumption.
Defined.

(** ** The two codes grow together *)

Lemma all_bytes_append (f : ascii -> bool) (a z : string) :
  all_bytes f (a ++ z) = all_bytes f a && all_bytes f z.
Proof.
  induction a as [|ch a IH]; cbn; [reflexivity|].
  now rewrite IH, andb_assoc.
Qed.

Lemma fragment_one_code_byte (f : string) :
  In f fragments ->
  String.length f = 1%nat /\ all_bytes code_byte f = true.
Proof.
  unfold fragments. cbn [In].
  intros H. repeat (destruct H as [<- | H]); try contradiction;
    split; reflexivity.
Qed.

(** Equal lengths and the alphabet of the codes survive an emission. *)
Lemma emitted_keeps_codes (p p' : phoneticData) :
  emitted p p' ->
  String.length (metaphone1 p) = String.length (metaphone2 p)
  /\ all_bytes code_byte (metaphone1 p) = true
  /\ all_bytes code_byte (metaphone2 p) = true ->
  String.length (metaphone1 p') = String.length (metaphone2 p')
  /\ all_bytes code_byte (metaphone1 p') = true
  /\ all_bytes code_byte (metaphone2 p') = true.
Proof.
  intros [[-> ->] | (f1 & f2 & Hf1 & Hf2 & -> & ->)] (Hl & H1 & H2);
    [auto|].
  destruct (fragment_one_code_byte f1 Hf1) as [Hl1 Hb1].
  destruct (fragment_one_code_byte f2 Hf2) as [Hl2 Hb2].
  rewrite !length_append, !all_bytes_append, H1, H2, Hb1, Hb2, Hl1, Hl2, Hl.
  auto.
Qed.

(** C10.  For every input the two codes [Metaphone] returns have the same
    length and consist of the bytes a, p, s, k, x only: every pass of the
    loop body emits nothing, or one fragment to each code, and every
    fragment is a single byte. *)
Theorem codes_equal_length (s : string) :
  representable s ->
  (exists m1 m2,
      Metaphone s = Ok (m1, m2)
      /\ String.length m1 = String.length m2
      /\ all_bytes code_byte m1 = true
      /\ all_bytes code_byte m2 = true)
  /\ (forall p p', visited s p -> cur p < len (t p) ->
        dispatch p = Ok p' -> emitted p p')
  /\ Forall (fun f => String.length f = 1%nat) fragments.
Proof.
  intros Hr. split; [|split].
  - destruct (Metaphone_runs s Hr) as (p0 & p' & Hp0 & _ & Hrun & Hm).
    exists (metaphone1 p'), (metaphone2 p'). split; [exact Hm|].
    destruct (prescan_scanning s p0 Hr Hp0) as [Hs _].
    apply (scans_invariant
             (fun q => String.length (metaphone1 q) = String.length (metaphone2 q)
                       /\ all_bytes code_byte (metaphone1 q) = true
                       /\ all_bytes code_byte (metaphone2 q) = true)
             p0 p'); try assumption.
    + intros q q' Hq Hi Hlt Hd.
      destruct (scanning_step q q' Hq Hlt Hd) as (_ & _ & _ & He).
      now apply (emitted_keeps_codes q q').
    + destruct (prescan_state s) as (q0 & Hq0 & _ & _ & Hcodes).
      rewrite Hp0 in Hq0. injection Hq0 as <-.
      destruct Hcodes as [[-> ->] | [-> ->]]; repeat split.
  - intros p p' Hv Hlt Hd. destruct (visited_scanning s p Hr Hv) as [Hs _].
    now destruct (scanning_step p p' Hs Hlt Hd) as (_ & _ & _ & He).
  - repeat constructor.
Qed.

Lemma codes_equal_length_witness :
  exists m1 m2, Metaphone "czerny" = Ok (m1, m2)
                /\ String.length m1 = String.length m2.
Proof.
  destruct (codes_equal_length "czerny") as ((m1 & m2 & Hm & Hl & _) & _);
    [vm_compute; discriminate|].
  exists m1, m2. split; assumption.
Defined.

(** * Further properties of the primitives and of the run *)

(** ** The matcher at the edges of the text *)

Lemma single_byte_eqb (x y : ascii) :
  String.eqb (String x EmptyString) (String y EmptyString) = Ascii.eqb x y.
Proof. cbn. now destruct (Ascii.eqb x y). Qed.

(** X1.  [isVowel] reads exactly one byte: where [cur + pos] is a position
    of the text, its answer is whether the byte there is one of a, e, i, o,
    u, y, the same class of bytes as the vowel case of the loop; where
    [cur + pos] is before the text, its answer is [false], without a read. *)
Theorem isVowel_reads_one_byte (p : phoneticData) (pos : Z) :
  0 <= cur p -> cur p + 1 <= Int.max_int -> len (t p) <= Int.max_int ->
  Int.min_int <= cur p + pos ->
  (cur p + pos < 0 -> isVowel p pos = Ok false)
  /\ (forall ch, index (t p) (cur p + pos) = Ok ch ->
        isVowel p pos = Ok (byte_in ch vowel_bytes)).
Proof.
  intros H0 Hmax Hlen Hmin. split.
  - intros Hneg. unfold isVowel, matchesAny.
    rewrite add_small by lia.
    now replace (cur p + pos <? 0) with true by (symmetry; apply Z.ltb_lt; lia).
  - intros ch Hi. apply index_Ok in Hi. destruct Hi as [Hr Hg].
    unfold isVowel. rewrite matchesAny_win; [| exact H0 | lia | ].
    + f_equal. unfold win_in, window.
      replace (0 <=? cur p + pos) with true by (symmetry; apply Z.leb_le; lia).
      cbn [andb existsb String.length].
      rewrite (substring_one _ _ _ Hg), !single_byte_eqb.
      reflexivity.
    + apply Forall_forall. intros str Hin.
      assert (Hone : len str = 1).
      { cbn [In] in Hin.
        repeat (destruct Hin as [<- | Hin]; [reflexivity|]). contradiction. }
      lia.
Qed.

Lemma isVowel_reads_one_byte_witness :
  isVowel (mkPhoneticData "bach     " 2 false "p" "p") (-1) = Ok true.
Proof.
  apply (proj2 (isVowel_reads_one_byte
                  (mkPhoneticData "bach     " 2 false "p" "p") (-1)
                  ltac:(cbn; lia) ltac:(vm_compute; discriminate)
                  ltac:(vm_compute; discriminate)
                  ltac:(vm_compute; discriminate)) "a"%char).
  reflexivity.
Defined.

(** X2.  The matcher has no guard on the high side: when the window of the
    first candidate starts inside or at the end of the text and ends past
    it, the slice expression panics, whatever the other candidates are. *)
Theorem matchesAny_overrun_panics
  (p : phoneticData) (pos : Z) (str : string) (rest : list string) :
  0 <= cur p -> 0 <= cur p + pos ->
  len (t p) < cur p + pos + len str ->
  cur p + len str <= Int.max_int ->
  cur p + pos + len str <= Int.max_int ->
  matchesAny p pos (str :: rest) = Panic.
Proof.
  intros H0 Hpos Hover Hm1 Hm2.
  pose proof min_int_small. pose proof (len_nonneg str).
  unfold matchesAny. cbn [matchesAny_range].
  rewrite (add_small (cur p) (len str)) by lia.
  rewrite (add_small (cur p + len str) pos) by lia.
  rewrite add_small by lia.
  replace (cur p + pos <? 0) with false by (symmetry; apply Z.ltb_ge; lia).
  unfold slice.
  replace (cur p + len str + pos <=? len (t p)) with false
    by (symmetry; apply Z.leb_gt; lia).
  now rewrite andb_false_r.
Qed.

Lemma matchesAny_overrun_panics_witness :
  matchesAny (mkPhoneticData "c" 0 false "" "") 0 ["caesar"; "c"] = Panic.
Proof.
  apply matchesAny_overrun_panics; vm_compute; congruence.
Defined.

(** ** The [b] handler *)

(** X3.  Whenever the loop invokes the [b] handler (the byte at the cursor
    is ['b']), the read of the next byte stays inside the padded text, the
    handler appends ["p"] to both codes, and it skips one byte more exactly
    when that next byte is ['b'] too: a doubled b is encoded once. *)
Theorem b_collapses_double (p : phoneticData) :
  scanning p -> index (t p) (cur p) = Ok "b"%char ->
  exists next p',
    index (t p) (cur p + 1) = Ok next
    /\ b p = Ok p'
    /\ t p' = t p
    /\ metaphone1 p' = metaphone1 p ++ "p"
    /\ metaphone2 p' = metaphone2 p ++ "p"
    /\ cur p' = (if Ascii.eqb next "b" then cur p + 1 else cur p).
Proof.
  intros Hs Hi.
  assert (Hw : in_word p)
    by (apply (in_word_at p "b"); [assumption .. | discriminate]).
  destruct Hw as (H0 & H6 & Hmax). pose proof min_int_small.
  destruct (index_total (t p) (cur p + 1)) as [next Hnext]; [lia|].
  exists next. unfold b. cbn [add t cur set_codes].
  rewrite add_small by lia. rewrite Hnext. cbn [bind].
  destruct (Ascii.eqb next "b"); eexists;
    (split; [reflexivity|]); (split; [reflexivity|]); cbn;
    rewrite ?add_small by lia; auto.
Qed.

Lemma b_collapses_double_witness :
  exists p', b (mkPhoneticData "abba     " 1 false "a" "a") = Ok p'
             /\ metaphone1 p' = "ap".
Proof.
  destruct (b_collapses_double (mkPhoneticData "abba     " 1 false "a" "a"))
    as (next & p' & Hn & Hb & _ & H1 & _ & Hc).
  - repeat split; [now exists "abba" | vm_compute; discriminate ..].
  - reflexivity.
  - exists p'. split; [exact Hb | exact H1].
Defined.

(** X4.  The read of [t[cur+1]] in the [b] handler has no guard of its
    own: on a text whose last byte is at the cursor it panics.  Only the
    padding keeps it inside the text. *)
Theorem b_panics_at_last_byte (p : phoneticData) :
  0 <= cur p -> len (t p) <= cur p + 1 -> cur p + 1 <= Int.max_int ->
  b p = Panic.
Proof.
  intros H0 Hlast Hmax. pose proof min_int_small.
  unfold b. cbn [add t cur set_codes]. rewrite add_small by lia.
  unfold index.
  replace (cur p + 1 <? len (t p)) with false by (symmetry; apply Z.ltb_ge; lia).
  now rewrite andb_false_r.
Qed.

Lemma b_panics_at_last_byte_witness :
  b (mkPhoneticData "rib" 2 false "" "") = Panic.
Proof.
  apply b_panics_at_last_byte; vm_compute; congruence.
Defined.

(** ** More on the [c] handler *)

Lemma acher_is_vowel (p : phoneticData) :
  win_in p (-2) ["acher"] = true -> vowel_at p (-2) = true.
Proof.
  intros H. unfold win_in in H. cbn [existsb] in H.
  apply andb_prop in H. destruct H as [Hpos H].
  rewrite orb_false_r in H.
  pose proof (window_bytes (t p) "acher" _ 0 H ltac:(cbn; lia)) as Hb.
  rewrite Nat.add_0_r in Hb. cbn [String.get] in Hb.
  unfold vowel_at, win_in. rewrite Hpos. cbn [andb existsb String.length].
  unfold window. now rewrite (substring_one _ _ _ Hb).
Qed.

(** X5.  The alternative ["acher"] of the first rule of [c] never decides:
    it asks for an ['a'] two bytes before the cursor, where the same rule
    has already required a byte that is not a vowel.  So the rule never
    applies when ['e'] follows ["ach"], and its condition is the one
    without the alternative. *)
Theorem germanic_rule_never_before_e (p : phoneticData) :
  in_word p ->
  c_germanic p
  = Ok ((1 <? cur p) && negb (vowel_at p (-2)) && win_in p (-1) ["ach"]
        && negb (win_in p 2 ["i"]) && negb (win_in p 2 ["e"]))
  /\ (matchesAny p 2 ["e"] = Ok true -> c_germanic p = Ok false).
Proof.
  intros Hw.
  assert (Heq : applies rule1 p
                = (1 <? cur p) && negb (vowel_at p (-2)) && win_in p (-1) ["ach"]
                  && negb (win_in p 2 ["i"]) && negb (win_in p 2 ["e"])).
  { cbn [applies rule1].
    destruct (win_in p (-2) ["acher"]) eqn:Ha;
      [|now rewrite orb_false_r].
    rewrite (acher_is_vowel p Ha). cbn [negb].
    now rewrite !andb_false_r. }
  rewrite (c_germanic_win p Hw), Heq. split; [reflexivity|].
  rewrite (matchesAny_in_word p 2 ["e"] Hw) by (first [lia | reflexivity]).
  intros H. assert (He : win_in p 2 ["e"] = true) by congruence.
  rewrite He. cbn [negb]. now rewrite andb_false_r.
Qed.

Lemma germanic_rule_never_before_e_witness :
  c_germanic (mkPhoneticData "macher     " 2 false "" "") = Ok false.
Proof.
  apply (proj2 (germanic_rule_never_before_e
                  (mkPhoneticData "macher     " 2 false "" "")
                  ltac:(repeat split; vm_compute; discriminate))).
  reflexivity.
Defined.

(** X6.  Whenever the loop invokes the [c] handler, the handler returns,
    leaves the text alone, and either changes nothing at all, or emits one
    of k, s, x to each code and skips one or two bytes more: it never emits
    without a skip, nor skips without an emission. *)
Theorem c_emits_and_skips_together (p : phoneticData) :
  scanning p -> index (t p) (cur p) = Ok "c"%char ->
  exists p', c p = Ok p'
    /\ t p' = t p
    /\ ((cur p' = cur p /\ metaphone1 p' = metaphone1 p
                        /\ metaphone2 p' = metaphone2 p)
        \/ (exists f1 f2,
              In f1 ["k"; "s"; "x"] /\ In f2 ["k"; "s"; "x"]
              /\ metaphone1 p' = metaphone1 p ++ f1
              /\ metaphone2 p' = metaphone2 p ++ f2
              /\ (cur p' = cur p + 1 \/ cur p' = cur p + 2))).
Proof.
  intros Hs Hi.
  assert (Hw : in_word p)
    by (apply (in_word_at p "c"); [assumption .. | discriminate]).
  exists (fire (first_match p) p). split; [now apply c_fires|].
  destruct (first_match p) as [r|] eqn:Hr; [|split; [reflexivity | left; auto]].
  apply find_some in Hr. destruct Hr as [Hin _].
  destruct Hw as (H0 & H6 & Hmax). pose proof min_int_small.
  unfold c_table in Hin. cbn [In] in Hin.
  repeat (destruct Hin as [<- | Hin]); try contradiction;
    (split; [reflexivity|]; right; eexists; eexists;
     split; [|split; [|split; [reflexivity|split; [reflexivity|]]]];
     [cbn; tauto | cbn; tauto | cbn; rewrite add_small by lia; auto]).
Qed.

Lemma c_emits_and_skips_together_witness :
  exists p', c (mkPhoneticData "focaccia     " 4 false "" "") = Ok p'
             /\ cur p' = 6.
Proof.
  destruct (c_emits_and_skips_together
              (mkPhoneticData "focaccia     " 4 false "" ""))
    as (p' & Hc & _).
  - repeat split; [now exists "focaccia" | vm_compute; discriminate ..].
  - reflexivity.
  - exists p'. split; [exact Hc|].
    assert (He : Ok p' = Ok (mkPhoneticData "focaccia     " 6 false "x" "x"))
      by (rewrite <- Hc; reflexivity).
    now injection He as ->.
Defined.

(** ** The states of a run *)

Lemma append_assoc (a m z : string) : (a ++ m) ++ z = a ++ (m ++ z).
Proof. induction a as [|ch a IH]; cbn; [reflexivity | now rewrite IH]. Qed.

Lemma append_empty_r (a : string) : a ++ "" = a.
Proof. induction a as [|ch a IH]; cbn; [reflexivity | now rewrite IH]. Qed.

Lemma prescan_on_entry (s : string) : prescan s = Ok (on_entry s).
Proof.
  unfold prescan. rewrite skip_silent_initial. cbn [bind].
  fold (after_skip s). unfold on_entry.
  pose proof (len_nonneg s).
  apply initial_x_near_start; unfold after_skip;
    destruct (win_in (initial s) 0 silent_clusters);
    cbn [skip set_cur t cur initial]; rewrite ?len_padded; cbn; lia.
Qed.

Lemma after_skip_shape (s : string) :
  t (after_skip s) = s ++ padding
  /\ (cur (after_skip s) = 0 \/ cur (after_skip s) = 2)
  /\ metaphone1 (after_skip s) = "" /\ metaphone2 (after_skip s) = ""
  /\ isSlavoGermanic (after_skip s) = false.
Proof.
  unfold after_skip.
  destruct (win_in (initial s) 0 silent_clusters); cbn; auto.
Qed.

(** The flag is carried along untouched by the body of the loop. *)
Lemma dispatch_flag (p p' : phoneticData) :
  scanning p -> dispatch p = Ok p' ->
  isSlavoGermanic p' = isSlavoGermanic p.
Proof.
  intros Hs. unfold dispatch.
  destruct (index (t p) (cur p)) as [next| |] eqn:Hnext; cbn [bind];
    try discriminate.
  destruct (byte_in next vowel_bytes).
  { destruct (cur p =? 0); cbn [bind]; intros [= <-]; reflexivity. }
  destruct (Ascii.eqb next "b") eqn:Hb.
  { unfold b. cbn [add t cur set_codes].
    destruct (index (t p) (Int.add (cur p) 1)) as [ch| |]; cbn [bind];
      try discriminate.
    destruct (Ascii.eqb ch "b"); cbn [bind]; intros [= <-]; reflexivity. }
  destruct (Ascii.eqb next cedilla_byte).
  { cbn [bind ç]. intros [= <-]. reflexivity. }
  destruct (Ascii.eqb next "c") eqn:Hc.
  { apply Ascii.eqb_eq in Hc. subst next.
    assert (Hw : in_word p)
      by (apply (in_word_at p "c"); [assumption .. | discriminate]).
    rewrite (c_fires p Hw). cbn [bind]. intros [= <-].
    destruct (first_match p); reflexivity. }
  cbn [bind]. intros [= <-]. reflexivity.
Qed.

(** The codes of a later state extend the codes of an earlier one. *)
Lemma scans_codes_grow (p p' : phoneticData) :
  scanning p -> scans p p' ->
  exists a1 a2, metaphone1 p' = metaphone1 p ++ a1
                /\ metaphone2 p' = metaphone2 p ++ a2.
Proof.
  intros Hs Hrun.
  apply (scans_invariant
           (fun q => exists a1 a2, metaphone1 q = metaphone1 p ++ a1
                                   /\ metaphone2 q = metaphone2 p ++ a2)
           p p'); try assumption.
  - intros q q' Hq (a1 & a2 & H1 & H2) Hlt Hd.
    destruct (scanning_step q q' Hq Hlt Hd) as (_ & _ & _ & He).
    destruct He as [[-> ->] | (f1 & f2 & _ & _ & -> & ->)].
    + now exists a1, a2.
    + exists (a1 ++ f1), (a2 ++ f2). now rewrite H1, H2, !append_assoc.
  - exists "", "". now rewrite !append_empty_r.
Qed.

(** X7.  Every state the loop visits during the encoding of an input has
    the padded input as its text, unchanged; its cursor lies between 0 and
    the length of that text, so no skip carries it past the end; and its
    Slavo-Germanic flag is still [false]: nothing ever sets it.  The loop
    ends with the cursor exactly at the end of the text. *)
Theorem visited_state_invariants (s : string) :
  representable s ->
  (forall p, visited s p ->
     t p = s ++ padding
     /\ 0 <= cur p <= len (s ++ padding)
     /\ isSlavoGermanic p = false)
  /\ exists p0 p', prescan s = Ok p0
       /\ scan (String.length (s ++ padding)) p0 = Ok p'
       /\ visited s p'
       /\ cur p' = len (s ++ padding).
Proof.
  intros Hr. split.
  - intros p Hv. destruct (visited_scanning s p Hr Hv) as [Hs Ht].
    split; [exact Ht|]. split; [rewrite <- Ht; now destruct Hs as (_ & Hc & _)|].
    destruct Hv as (p0 & Hp0 & Hrun).
    destruct (prescan_scanning s p0 Hr Hp0) as [Hs0 _].
    apply (scans_invariant (fun q => isSlavoGermanic q = false) p0 p);
      try assumption.
    + intros q q' Hq Hf Hlt Hd. now rewrite (dispatch_flag q q' Hq Hd).
    + rewrite prescan_on_entry in Hp0. injection Hp0 as <-.
      unfold on_entry.
      destruct (after_skip_shape s) as (_ & _ & _ & _ & Hf).
      now destruct (win_in (after_skip s) 0 ["x"]).
  - destruct (prescan_state s) as (p0 & Hp0 & _).
    destruct (prescan_scanning s p0 Hr Hp0) as [Hs Ht].
    destruct (scan_runs (String.length (s ++ padding)) p0 Hs)
      as (p' & Hp' & Hrun & Hend).
    { rewrite Ht. unfold len. destruct Hs as (_ & Hc & _). lia. }
    exists p0, p'. repeat split; try assumption.
    + now exists p0.
    + assert (Hv : visited s p') by (now exists p0).
      destruct (visited_scanning s p' Hr Hv) as [(_ & Hc & _) Ht'].
      rewrite Ht' in *. lia.
Qed.

Lemma visited_state_invariants_witness :
  exists p0 p', prescan "focaccia" = Ok p0
    /\ scan (String.length ("focaccia" ++ padding)) p0 = Ok p'
    /\ visited "focaccia" p'
    /\ cur p' = len ("focaccia" ++ padding).
Proof.
  apply (proj2 (visited_state_invariants "focaccia"
                  ltac:(vm_compute; discriminate))).
Defined.

(** X8.  The codes are append-only: between a state the loop visits and any
    later state of the run, each code has only been extended at its end. *)
Theorem codes_append_only (s : string) (p p' : phoneticData) :
  representable s -> visited s p -> scans p p' ->
  exists a1 a2, metaphone1 p' = metaphone1 p ++ a1
                /\ metaphone2 p' = metaphone2 p ++ a2.
Proof.
  intros Hr Hv Hrun. destruct (visited_scanning s p Hr Hv) as [Hs _].
  now apply scans_codes_grow.
Qed.

Lemma codes_append_only_witness :
  exists a1 a2,
    metaphone1 (mkPhoneticData "bb     " 2 false "p" "p") = "" ++ a1
    /\ metaphone2 (mkPhoneticData "bb     " 2 false "p" "p") = "" ++ a2.
Proof.
  apply (codes_append_only "bb" (initial "bb"));
    [vm_compute; discriminate | | ].
  - exists (initial "bb"). split; [reflexivity | constructor].
  - eapply scans_next; [constructor | vm_compute; reflexivity | reflexivity].
Defined.

(** ** The size and the start of the codes *)

(** An emission happens only with the cursor on a byte of the word, and
    makes each code one byte longer. *)
Lemma dispatch_emits_in_word (p p' : phoneticData) :
  scanning p -> cur p < len (t p) -> dispatch p = Ok p' ->
  (metaphone1 p' = metaphone1 p /\ metaphone2 p' = metaphone2 p)
  \/ (in_word p
      /\ String.length (metaphone1 p') = S (String.length (metaphone1 p))
      /\ String.length (metaphone2 p') = S (String.length (metaphone2 p))).
Proof.
  intros Hs Hlt Hd.
  destruct (scanning_step p p' Hs Hlt Hd) as (_ & _ & _ & He).
  destruct He as [Hsame | (f1 & f2 & Hf1 & Hf2 & H1 & H2)]; [now left|].
  destruct (index_total (t p) (cur p)) as [ch Hch];
    [destruct Hs as (_ & Hc & _); lia|].
  destruct (Ascii.eqb_spec ch " ") as [->|Hns].
  - left. rewrite (dispatch_unhandled p " " Hs Hch eq_refl) in Hd.
    injection Hd as <-. cbn. auto.
  - right. split; [now apply (in_word_at p ch)|].
    destruct (fragment_one_code_byte f1 Hf1) as [Hl1 _].
    destruct (fragment_one_code_byte f2 Hf2) as [Hl2 _].
    rewrite H1, H2, !length_append, Hl1, Hl2. lia.
Qed.

Lemma on_entry_shape (s : string) :
  t (on_entry s) = s ++ padding
  /\ cur (on_entry s) = cur (after_skip s)
  /\ ((win_in (after_skip s) 0 ["x"] = false
       /\ metaphone1 (on_entry s) = "" /\ metaphone2 (on_entry s) = "")
      \/ (index (s ++ padding) (cur (after_skip s)) = Ok "x"%char
          /\ metaphone1 (on_entry s) = "s" /\ metaphone2 (on_entry s) = "s")).
Proof.
  destruct (after_skip_shape s) as (Ht & Hc & H1 & H2 & _).
  pose proof (len_nonneg s).
  unfold on_entry. destruct (win_in (after_skip s) 0 ["x"]) eqn:Hx.
  - cbn [add t cur set_codes metaphone1 metaphone2]. rewrite H1, H2.
    repeat split; try assumption. right.
    apply win_in_byte in Hx; [|rewrite Ht, len_padded; lia].
    rewrite Ht in Hx. auto.
  - repeat split; try assumption. left. auto.
Qed.

(** X9.  Neither code is ever longer than the input: a pass of the loop
    emits at most one byte to each code, only with the cursor on a byte of
    the input, and moves the cursor on; the ["s"] emitted before the loop
    answers for an ['x'] that emits nothing itself. *)
Theorem codes_no_longer_than_input (s : string) :
  representable s ->
  exists m1 m2, Metaphone s = Ok (m1, m2)
    /\ (String.length m1 <= String.length s)%nat
    /\ (String.length m2 <= String.length s)%nat.
Proof.
  intros Hr.
  destruct (Metaphone_runs s Hr) as (p0 & p' & Hp0 & _ & Hrun & Hm).
  exists (metaphone1 p'), (metaphone2 p'). split; [exact Hm|].
  destruct (prescan_scanning s p0 Hr Hp0) as [Hs Ht0].
  set (I := fun q =>
              t q = s ++ padding
              /\ ((Z.of_nat (String.length (metaphone1 q)) <= cur q
                   /\ Z.of_nat (String.length (metaphone2 q)) <= cur q
                   /\ (String.length (metaphone1 q) <= String.length s)%nat
                   /\ (String.length (metaphone2 q) <= String.length s)%nat)
                  \/ (cur q = 0 /\ index (t q) 0 = Ok "x"%char
                      /\ String.length (metaphone1 q) = 1%nat
                      /\ String.length (metaphone2 q) = 1%nat))).
  assert (Hx0 : index (s ++ padding) 0 = Ok "x"%char ->
                (1 <= String.length s)%nat).
  { intros Hi. apply index_before_padding in Hi; [|discriminate].
    unfold len in Hi. lia. }
  destruct (scans_invariant I p0 p') as (_ & Ht' & HI);
    [ | exact Hs | | exact Hrun | ].
  - intros q q' Hq (Htq & HIq) Hlt Hd.
    destruct (scanning_step q q' Hq Hlt Hd) as (_ & Ht & Hc & _).
    split; [congruence|].
    destruct HIq as [(L1 & L2 & B1 & B2) | (Hc0 & Hx & L1 & L2)].
    + left.
      destruct (dispatch_emits_in_word q q' Hq Hlt Hd)
        as [[-> ->] | ((_ & H6 & _) & -> & ->)]; [lia|].
      rewrite Htq, len_padded in H6. unfold len in H6. lia.
    + left.
      rewrite (dispatch_unhandled q "x" Hq) in Hd;
        [| now rewrite Hc0 | reflexivity].
      injection Hd as <-. cbn. rewrite Htq in Hx. specialize (Hx0 Hx). lia.
  - rewrite prescan_on_entry in Hp0. injection Hp0 as <-.
    destruct (on_entry_shape s) as (Ht & Hc & Hcodes).
    destruct (after_skip_shape s) as (_ & Hc02 & _).
    split; [exact Ht|]. rewrite Ht, Hc.
    destruct Hcodes as [(_ & -> & ->) | (Hx & -> & ->)].
    + left. cbn. lia.
    + destruct Hc02 as [Hz|Hz]; rewrite Hz in *.
      * right. auto.
      * left. apply index_before_padding in Hx; [|discriminate].
        unfold len in Hx. cbn. lia.
  - destruct HI as [(_ & _ & B1 & B2) | (_ & Hx & L1 & L2)]; [auto|].
    rewrite Ht' in Hx. specialize (Hx0 Hx). lia.
Qed.

Lemma codes_no_longer_than_input_witness :
  exists m1 m2, Metaphone "xb" = Ok (m1, m2)
    /\ (String.length m1 <= 2)%nat /\ (String.length m2 <= 2)%nat.
Proof.
  apply (codes_no_longer_than_input "xb"). vm_compute. discriminate.
Defined.

Lemma index_first (ch : ascii) (s : string) :
  index (String ch s ++ padding) 0 = Ok ch.
Proof.
  apply index_Ok. split; [|reflexivity].
  pose proof (len_nonneg (s ++ padding)).
  change (String ch s ++ padding) with (String ch (s ++ padding)).
  unfold len in *. cbn [String.length]. lia.
Qed.

(** A word that starts with a byte no cluster and no ['x'] starts with is
    scanned from cursor 0 with empty codes. *)
Lemma on_entry_plain (ch : ascii) (s : string) :
  byte_in ch ["g"; "k"; "p"; "w"; "x"]%char = false ->
  on_entry (String ch s) = initial (String ch s).
Proof.
  intros Hch.
  assert (Hsil : win_in (initial (String ch s)) 0 silent_clusters = false).
  { rewrite win_in_begins_silent.
    unfold begins_silent, silent_clusters. cbn [existsb String.prefix].
    repeat match goal with
           | |- context [ascii_dec ?u ch] =>
               destruct (ascii_dec u ch) as [<-|]; [discriminate Hch|]
           end.
    reflexivity. }
  unfold on_entry, after_skip. rewrite Hsil.
  destruct (win_in (initial (String ch s)) 0 ["x"]) eqn:Hx; [|reflexivity].
  apply win_in_byte in Hx.
  - cbn [initial t cur] in Hx. rewrite index_first in Hx.
    injection Hx as ->. discriminate Hch.
  - cbn [initial t cur]. change (String ch s ++ padding)
      with (String ch (s ++ padding)).
    pose proof (len_nonneg (s ++ padding)).
    unfold len in *. cbn [String.length]. lia.
Qed.

(** X10.  Every input that begins with a vowel is encoded with ["a"] as the
    first byte of both codes, whichever of a, e, i, o, u, y it is. *)
Theorem initial_vowel_encodes_a (ch : ascii) (s : string) :
  representable (String ch s) -> byte_in ch vowel_bytes = true ->
  exists r1 r2, Metaphone (String ch s) = Ok ("a" ++ r1, "a" ++ r2).
Proof.
  intros Hr Hv.
  destruct (Metaphone_runs _ Hr) as (p0 & p' & Hp0 & Hscan & _ & Hm).
  rewrite prescan_on_entry in Hp0. injection Hp0 as <-.
  assert (Hplain : on_entry (String ch s) = initial (String ch s)).
  { apply on_entry_plain.
    unfold vowel_bytes in Hv. cbn [byte_in existsb] in *.
    destruct ch as [[] [] [] [] [] [] [] []]; first [reflexivity | discriminate Hv]. }
  rewrite Hplain in Hscan.
  assert (Hs : scanning (initial (String ch s))).
  { rewrite <- Hplain.
    apply (prescan_scanning (String ch s)); [exact Hr | apply prescan_on_entry]. }
  assert (Hlt : cur (initial (String ch s)) < len (t (initial (String ch s)))).
  { cbn [initial t cur]. change (String ch s ++ padding)
      with (String ch (s ++ padding)).
    pose proof (len_nonneg (s ++ padding)).
    unfold len in *. cbn [String.length]. lia. }
  change (String.length (String ch s ++ padding))
    with (S (String.length (s ++ padding))) in Hscan.
  cbn [scan] in Hscan.
  replace (cur (initial (String ch s)) <? len (t (initial (String ch s))))
    with true in Hscan by (symmetry; apply Z.ltb_lt; exact Hlt).
  destruct (dispatch (initial (String ch s))) as [p1| |] eqn:Hd;
    cbn [bind] in Hscan; try discriminate.
  destruct (scanning_step _ p1 Hs Hlt Hd) as (Hs1 & _).
  assert (Hp1 : metaphone1 p1 = "a" /\ metaphone2 p1 = "a").
  { unfold dispatch in Hd. cbn [initial t cur] in Hd.
    rewrite index_first in Hd. cbn [bind] in Hd. rewrite Hv in Hd.
    cbn in Hd. injection Hd as <-. auto. }
  destruct Hp1 as [H1 H2].
  destruct (scans_codes_grow p1 p' Hs1 (scan_scans _ _ _ Hscan))
    as (a1 & a2 & Ha1 & Ha2).
  exists a1, a2. now rewrite Hm, Ha1, Ha2, H1, H2.
Qed.

Lemma initial_vowel_encodes_a_witness :
  exists r1 r2, Metaphone "ybbc" = Ok ("a" ++ r1, "a" ++ r2).
Proof.
  apply (initial_vowel_encodes_a "y" "bbc");
    [vm_compute; discriminate | reflexivity].
Defined.

(** ** Bytes that contribute nothing *)

Lemma inert_unhandled (ch : ascii) : inert ch = true -> unhandled ch = true.
Proof. unfold inert. intros H. now apply andb_prop in H. Qed.

(** X11.  An input made only of bytes that have no case in the [switch]
    and are not ['x'] is encoded as the pair of empty codes, also when it
    begins with a silent cluster: letters without a handler contribute
    nothing. *)
Theorem unhandled_bytes_encode_to_nothing (s : string) :
  representable s -> all_bytes inert s = true ->
  Metaphone s = Ok ("", "").
Proof.
  intros Hr Hall.
  destruct (Metaphone_runs s Hr) as (p0 & p' & Hp0 & _ & Hrun & Hm).
  destruct (prescan_scanning s p0 Hr Hp0) as [Hs _].
  rewrite prescan_on_entry in Hp0. injection Hp0 as <-.
  destruct (on_entry_shape s) as (Ht & _ & Hcodes).
  assert (Hempty : metaphone1 (on_entry s) = "" /\ metaphone2 (on_entry s) = "").
  { destruct Hcodes as [(_ & H1 & H2) | (Hx & _)]; [auto|].
    destruct (padded_byte inert s _ "x" Hall Hx); discriminate. }
  destruct (scans_invariant
              (fun q => t q = s ++ padding
                        /\ metaphone1 q = "" /\ metaphone2 q = "")
              (on_entry s) p') as (_ & _ & H1 & H2);
    [ | exact Hs | now split | exact Hrun | now rewrite Hm, H1, H2].
  intros q q' Hq (Htq & H1 & H2) Hlt Hd.
  destruct (index_total (t q) (cur q)) as [ch Hch];
    [destruct Hq as (_ & Hc & _); lia|].
  assert (Hu : unhandled ch = true).
  { rewrite Htq in Hch.
    destruct (padded_byte inert s _ ch Hall Hch) as [Hi| ->];
      [now apply inert_unhandled | reflexivity]. }
  rewrite (dispatch_unhandled q ch Hq Hch Hu) in Hd.
  injection Hd as <-. cbn. auto.
Qed.

Lemma unhandled_bytes_encode_to_nothing_witness :
  Metaphone "knltd" = Ok ("", "").
Proof.
  apply unhandled_bytes_encode_to_nothing;
    [vm_compute; discriminate | reflexivity].
Defined.

(** ** Runs of b *)

Lemma length_replicate (n : nat) (ch : ascii) :
  String.length (replicate n ch) = n.
Proof. induction n as [|n IH]; cbn; [reflexivity | now rewrite IH]. Qed.

Lemma get_replicate (n i : nat) (ch : ascii) :
  (i < n)%nat -> String.get i (replicate n ch) = Some ch.
Proof.
  revert i. induction n as [|n IH]; intros i Hi; [lia|].
  destruct i as [|i]; cbn; [reflexivity | apply IH; lia].
Qed.

Lemma index_replicate (n k : nat) (ch : ascii) :
  index (replicate n ch ++ padding) (Z.of_nat k)
  = if (k <? n)%nat then Ok ch
    else if (k <? n + 5)%nat then Ok " "%char else Panic.
Proof.
  destruct (Nat.ltb_spec k n) as [Hlt|Hge].
  - apply index_Ok. rewrite len_padded. unfold len.
    rewrite length_replicate, Nat2Z.id. split; [lia|].
    rewrite get_append_left by (now rewrite length_replicate).
    now apply get_replicate.
  - destruct (Nat.ltb_spec k (n + 5)) as [Hlt5|Hge5].
    + apply index_Ok. rewrite len_padded. unfold len.
      rewrite length_replicate, Nat2Z.id. split; [lia|].
      apply get_padding. rewrite length_replicate. lia.
    + unfold index. rewrite len_padded. unfold len. rewrite length_replicate.
      replace (Z.of_nat k <? Z.of_nat n + 5) with false
        by (symmetry; apply Z.ltb_ge; lia).
      now rewrite andb_false_r.
Qed.

(** The body of the loop on a ['b']. *)
Lemma dispatch_on_b (p : phoneticData) (next : ascii) :
  scanning p -> index (t p) (cur p) = Ok "b"%char ->
  index (t p) (cur p + 1) = Ok next ->
  dispatch p
  = Ok (set_cur (cur p + (if Ascii.eqb next "b" then 2 else 1))
          (add ["p"] p)).
Proof.
  intros Hs Hi Hn.
  assert (Hw : in_word p)
    by (apply (in_word_at p "b"); [assumption .. | discriminate]).
  destruct Hw as (H0 & H6 & Hmax). pose proof min_int_small.
  unfold dispatch. rewrite Hi. cbn [bind].
  replace (byte_in "b" vowel_bytes) with false by reflexivity.
  rewrite Ascii.eqb_refl.
  unfold b. cbn [add t cur set_codes].
  rewrite add_small by lia. rewrite Hn. cbn [bind].
  destruct (Ascii.eqb next "b"); cbn [bind]; cbn;
    rewrite ?(add_small (cur p) 1) by lia; rewrite ?add_small by lia;
    unfold skip, set_cur, set_codes;
    cbn [t cur isSlavoGermanic metaphone1 metaphone2];
    do 2 f_equal; lia.
Qed.

(** Past the word the loop only walks over the padding. *)
Lemma scan_past_word (s : string) (fuel : nat) (p p' : phoneticData) :
  scanning p -> t p = s ++ padding -> len s <= cur p ->
  scan fuel p = Ok p' ->
  metaphone1 p' = metaphone1 p /\ metaphone2 p' = metaphone2 p.
Proof.
  intros Hs Ht Hc Hscan. apply scan_scans in Hscan.
  destruct (scans_invariant
              (fun q => t q = s ++ padding /\ len s <= cur q
                        /\ metaphone1 q = metaphone1 p
                        /\ metaphone2 q = metaphone2 p)
              p p') as (_ & _ & _ & H1 & H2);
    [ | exact Hs | now repeat split | exact Hscan | now split].
  intros q q' Hq (Htq & Hcq & H1 & H2) Hlt Hd.
  assert (Hch : index (t q) (cur q) = Ok " "%char).
  { apply index_Ok. split; [destruct Hq as (_ & H0 & _); lia|].
    rewrite Htq in *. rewrite len_padded in Hlt. unfold len in *.
    apply get_padding. lia. }
  rewrite (dispatch_unhandled q " " Hq Hch eq_refl) in Hd.
  injection Hd as <-. cbn. repeat split; try assumption. lia.
Qed.

Lemma append_replicate_S (m : string) (j : nat) (ch : ascii) :
  (m ++ String ch "") ++ replicate j ch = m ++ replicate (S j) ch.
Proof. now rewrite append_assoc. Qed.

(** From cursor [k] inside a run of [n] b, with [r] of them left, the loop
    emits one ["p"] for every two b, and one for a last single b. *)
Lemma scan_run_of_b (r : nat) :
  forall (k n fuel : nat) (m1 m2 : string) (p' : phoneticData),
    (k + r = n)%nat -> Z.of_nat n + 5 <= Int.max_int ->
    scan fuel (mkPhoneticData (replicate n "b" ++ padding) (Z.of_nat k)
                 false m1 m2) = Ok p' ->
    metaphone1 p' = m1 ++ replicate (Nat.div2 (S r)) "p"
    /\ metaphone2 p' = m2 ++ replicate (Nat.div2 (S r)) "p".
Proof.
  induction r as [r IH] using lt_wf_ind.
  intros k n fuel m1 m2 p' Hk Hmax Hscan.
  set (p := mkPhoneticData (replicate n "b" ++ padding) (Z.of_nat k)
              false m1 m2) in *.
  assert (Hlen : len (t p) = Z.of_nat n + 5)
    by (cbn [p t]; rewrite len_padded; unfold len;
        now rewrite length_replicate).
  assert (Hs : scanning p).
  { repeat split; [now exists (replicate n "b") | cbn [p cur]; lia
                  | rewrite Hlen; cbn [p cur]; lia | lia]. }
  destruct r as [|r].
  - destruct (scan_past_word (replicate n "b") fuel p p' Hs eq_refl)
      as [H1 H2]; [|exact Hscan|].
    + unfold len. rewrite length_replicate. cbn [p cur]. lia.
    + cbn [Nat.div2 replicate]. now rewrite H1, H2, !append_empty_r.
  - assert (Hlt : cur p < len (t p)) by (rewrite Hlen; cbn [p cur]; lia).
    destruct fuel as [|fuel]; cbn [scan] in Hscan;
      replace (cur p <? len (t p)) with true in Hscan
        by (symmetry; apply Z.ltb_lt; exact Hlt);
      [discriminate|].
    assert (Hb : index (t p) (cur p) = Ok "b"%char).
    { cbn [p t cur]. rewrite index_replicate.
      now replace (k <? n)%nat with true by (symmetry; apply Nat.ltb_lt; lia). }
    assert (Hnext : index (t p) (cur p + 1)
                    = Ok (if (S k <? n)%nat then "b" else " ")%char).
    { cbn [p t cur]. replace (Z.of_nat k + 1) with (Z.of_nat (S k)) by lia.
      rewrite index_replicate.
      destruct (S k <? n)%nat; [reflexivity|].
      now replace (S k <? n + 5)%nat with true
        by (symmetry; apply Nat.ltb_lt; lia). }
    rewrite (dispatch_on_b p _ Hs Hb Hnext) in Hscan. cbn [bind] in Hscan.
    destruct (Nat.ltb_spec (S k) n) as [Hmore|Hlast].
    + destruct r as [|r]; [lia|].
      change (set_cur _ (add ["p"] p))
        with (mkPhoneticData (replicate n "b" ++ padding) (Z.of_nat k + 2)
                false (m1 ++ "p") (m2 ++ "p")) in Hscan.
      replace (Z.of_nat k + 2) with (Z.of_nat (S (S k))) in Hscan by lia.
      destruct (IH r ltac:(lia) (S (S k)) n fuel _ _ p' ltac:(lia) Hmax Hscan)
        as [H1 H2].
      rewrite H1, H2. change (Nat.div2 (S (S (S r)))) with (S (Nat.div2 (S r))).
      now rewrite !append_replicate_S.
    + assert (r = 0)%nat by lia. subst r.
      change (set_cur _ (add ["p"] p))
        with (mkPhoneticData (replicate n "b" ++ padding) (Z.of_nat k + 1)
                false (m1 ++ "p") (m2 ++ "p")) in Hscan.
      replace (Z.of_nat k + 1) with (Z.of_nat (S k)) in Hscan by lia.
      destruct (IH 0%nat ltac:(lia) (S k) n fuel _ _ p' ltac:(lia) Hmax Hscan)
        as [H1 H2].
      rewrite H1, H2. cbn [Nat.div2 replicate]. now rewrite !append_empty_r.
Qed.

(** X12.  A run of [n] b is encoded as one ["p"] for every pair of b and
    one more for an odd b left over: [n] b give [(n + 1) / 2] p, in both
    codes. *)
Theorem run_of_b_encodes_pairs (n : nat) :
  representable (replicate n "b") ->
  Metaphone (replicate n "b")
  = Ok (replicate (Nat.div2 (S n)) "p", replicate (Nat.div2 (S n)) "p").
Proof.
  intros Hr.
  destruct (Metaphone_runs _ Hr) as (p0 & p' & Hp0 & Hscan & _ & Hm).
  rewrite prescan_on_entry in Hp0. injection Hp0 as <-.
  assert (Hplain : on_entry (replicate n "b") = initial (replicate n "b")).
  { destruct n as [|n]; [reflexivity|]. now apply on_entry_plain. }
  rewrite Hplain in Hscan.
  assert (Hmax : Z.of_nat n + 5 <= Int.max_int).
  { unfold representable in Hr. rewrite len_padded in Hr. unfold len in Hr.
    now rewrite length_replicate in Hr. }
  destruct (scan_run_of_b n 0 n _ "" "" p' eq_refl Hmax Hscan) as [H1 H2].
  now rewrite Hm, H1, H2.
Qed.

Lemma run_of_b_encodes_pairs_witness : Metaphone "bbbbb" = Ok ("ppp", "ppp").
Proof.
  apply (run_of_b_encodes_pairs 5). vm_compute. discriminate.
Defined.

(** ** The digraph ch *)

Lemma ch_excludes_caesar (p : phoneticData) :
  win_in p 0 ["ch"] = true -> applies rule2 p = false.
Proof.
  intros Hch. cbn [applies rule2].
  destruct (win_in p 0 ["caesar"]) eqn:Hc; [|now rewrite andb_false_r].
  exfalso.
  unfold win_in in Hch, Hc. cbn [existsb] in Hch, Hc.
  apply andb_prop in Hch. destruct Hch as [_ Hch].
  apply andb_prop in Hc. destruct Hc as [_ Hc].
  rewrite orb_false_r in Hch, Hc.
  pose proof (window_bytes (t p) "ch" _ 1 Hch ltac:(cbn; lia)) as H1.
  pose proof (window_bytes (t p) "caesar" _ 1 Hc ltac:(cbn; lia)) as H2.
  rewrite H1 in H2. discriminate H2.
Qed.

(** X13.  Whenever the loop invokes the [c] handler on a ["ch"], the
    handler consumes the two bytes as one sound: it emits exactly one
    fragment, ["k"] or ["x"], to each code, and skips the ['h'], whatever
    the surrounding bytes are. *)
Theorem ch_is_one_sound (p : phoneticData) :
  scanning p -> index (t p) (cur p) = Ok "c"%char ->
  matchesAny p 0 ["ch"] = Ok true ->
  exists p' f1 f2,
    c p = Ok p'
    /\ In f1 ["k"; "x"] /\ In f2 ["k"; "x"]
    /\ metaphone1 p' = metaphone1 p ++ f1
    /\ metaphone2 p' = metaphone2 p ++ f2
    /\ cur p' = cur p + 1
    /\ t p' = t p.
Proof.
  intros Hs Hi Hm.
  assert (Hw : in_word p)
    by (apply (in_word_at p "c"); [assumption .. | discriminate]).
  rewrite (matchesAny_in_word p 0 ["ch"] Hw) in Hm
    by (first [lia | reflexivity]).
  assert (Hch : win_in p 0 ["ch"] = true) by congruence.
  exists (fire (first_match p) p).
  rewrite (c_fires p Hw).
  destruct Hw as (H0 & H6 & Hmax). pose proof min_int_small.
  assert (Hleaf : forall r f1 f2,
             emitP r = f1 -> emitS r = f2 -> extra r = 1 ->
             In f1 ["k"; "x"] -> In f2 ["k"; "x"] ->
             exists g1 g2,
               Ok (fire (Some r) p) = Ok (fire (Some r) p)
               /\ In g1 ["k"; "x"] /\ In g2 ["k"; "x"]
               /\ metaphone1 (fire (Some r) p) = metaphone1 p ++ g1
               /\ metaphone2 (fire (Some r) p) = metaphone2 p ++ g2
               /\ cur (fire (Some r) p) = cur p + 1
               /\ t (fire (Some r) p) = t p).
  { intros r f1 f2 <- <- He H1 H2. exists (emitP r), (emitS r).
    repeat split; try assumption.
    cbn. rewrite He. now rewrite add_small by lia. }
  unfold first_match, c_table. cbn [find].
  destruct (applies rule1 p);
    [apply (Hleaf rule1 "k" "k"); cbn; auto|].
  rewrite (ch_excludes_caesar p Hch).
  destruct (applies rule3 p);
    [apply (Hleaf rule3 "k" "k"); cbn; auto|].
  cbn [applies rule4a rule4b rule4c rule4d rule4e rule4f].
  rewrite Hch. cbn [andb].
  repeat match goal with
         | |- context [if ?x then Some _ else _] =>
             destruct x;
             [eapply Hleaf; try reflexivity; cbn; auto|]
         end.
  apply (Hleaf rule4f "x" "x"); cbn; auto.
Qed.

Lemma ch_is_one_sound_witness :
  exists p' f1 f2,
    c (mkPhoneticData "mchugh     " 1 false "" "") = Ok p'
    /\ metaphone1 p' = "" ++ f1 /\ metaphone2 p' = "" ++ f2
    /\ cur p' = 2.
Proof.
  destruct (ch_is_one_sound (mkPhoneticData "mchugh     " 1 false "" ""))
    as (p' & f1 & f2 & Hc & _ & _ & H1 & H2 & Hcur & _).
  - repeat split; [now exists "mchugh" | vm_compute; discriminate ..].
  - reflexivity.
  - reflexivity.
  - exists p', f1, f2. repeat split; assumption.
Defined.

(** X14.  Whenever the byte at the cursor is the single byte 231, the loop
    reaches the cedilla handler: the pass appends ["s"] to both codes and
    moves the cursor by one, with no skip. *)
Theorem cedilla_byte_encodes_s (p : phoneticData) :
  scanning p -> index (t p) (cur p) = Ok cedilla_byte ->
  exists p', dispatch p = Ok p'
    /\ metaphone1 p' = metaphone1 p ++ "s"
    /\ metaphone2 p' = metaphone2 p ++ "s"
    /\ cur p' = cur p + 1
    /\ t p' = t p.
Proof.
  intros Hs Hi.
  destruct (cedilla_byte_dispatch p Hs Hi) as (p' & Hd & H1 & H2 & Hc).
  exists p'. repeat split; try assumption.
  assert (Hlt : cur p < len (t p)) by (apply index_Ok in Hi; lia).
  now destruct (scanning_step p p' Hs Hlt Hd) as (_ & Ht & _).
Qed.

Lemma cedilla_byte_encodes_s_witness :
  exists p', dispatch (initial (String cedilla_byte "a")) = Ok p'
             /\ metaphone1 p' = "s" /\ cur p' = 1.
Proof.
  destruct (cedilla_byte_encodes_s (initial (String cedilla_byte "a")))
    as (p' & Hd & H1 & _ & Hc & _).
  - repeat split; [now exists (String cedilla_byte "a")
                  | vm_compute; discriminate ..].
  - reflexivity.
  - exists p'. repeat split; assumption.
Defined.

(** ** One more space at the end of the text *)

Lemma substring_append_left (t0 z : string) :
  forall i m : nat,
    (i + m <= String.length t0)%nat ->
    String.substring i m (t0 ++ z) = String.substring i m t0.
Proof.
  induction t0 as [|ch t0 IH]; intros i m H.
  - cbn in H. assert (i = 0 /\ m = 0)%nat as [-> ->] by lia.
    cbn. now destruct z.
  - destruct i as [|i]; cbn [append String.substring].
    + destruct m as [|m]; [reflexivity|]. f_equal. apply IH. cbn in H. lia.
    + apply IH. cbn in H. lia.
Qed.

Lemma index_widen (t0 : string) (i : Z) :
  0 <= i < len t0 -> index (t0 ++ " ") i = index t0 i.
Proof.
  intros H. unfold index. rewrite len_append.
  assert (Hz := len_nonneg " ").
  replace (i <? len t0 + len " ") with true by (symmetry; apply Z.ltb_lt; lia).
  replace (i <? len t0) with true by (symmetry; apply Z.ltb_lt; lia).
  rewrite get_append_left; [reflexivity | unfold len in H; lia].
Qed.

(** The matcher cannot tell the wider text where its windows end inside the
    narrower one. *)
Lemma win_in_widen (p : phoneticData) (off : Z) (cands : list string) :
  Forall (fun str => cur p + off + len str <= len (t p)) cands ->
  win_in (widen p) off cands = win_in p off cands.
Proof.
  intros HF. unfold win_in.
  destruct cands as [|c0 cands0] eqn:Hc; [reflexivity|].
  rewrite <- Hc in *. clear Hc. cbn [widen cur].
  destruct (Z.leb_spec 0 (cur p + off)) as [Hpos|Hneg]; [|reflexivity].
  cbn [andb].
  induction HF as [|str rest Hstr HF IH]; [reflexivity|].
  cbn [existsb]. rewrite IH. f_equal. f_equal.
  unfold window. cbn [widen cur t].
  apply substring_append_left. unfold len in Hstr. lia.
Qed.

Lemma win_in_widen_near (p : phoneticData) (off : Z) (cands : list string) :
  in_word p -> near off cands = true ->
  win_in (widen p) off cands = win_in p off cands.
Proof.
  intros (H0 & H6 & _) Hnear. apply win_in_widen.
  apply Forall_forall. intros str Hin.
  unfold near in Hnear. rewrite forallb_forall in Hnear.
  specialize (Hnear str Hin). apply andb_prop in Hnear. lia.
Qed.

Lemma win_in_widen_anchor (p : phoneticData) (cands : list string) :
  in_word p -> near 0 cands = true ->
  win_in (widen p) (- cur p) cands = win_in p (- cur p) cands.
Proof.
  intros (H0 & H6 & _) Hnear. apply win_in_widen.
  apply Forall_forall. intros str Hin.
  unfold near in Hnear. rewrite forallb_forall in Hnear.
  specialize (Hnear str Hin). apply andb_prop in Hnear. lia.
Qed.

Lemma first_match_widen (p : phoneticData) :
  in_word p -> first_match (widen p) = first_match p.
Proof.
  intros Hw. unfold first_match, c_table.
  cbn [find applies rule1 rule2 rule3 rule4a rule4b rule4c rule4d rule4e
         rule4f rule5 rule6].
  unfold vowel_at.
  change (cur (widen p)) with (cur p).
  rewrite !(win_in_widen_anchor p _ Hw) by reflexivity.
  rewrite !(win_in_widen_near p _ _ Hw) by reflexivity.
  reflexivity.
Qed.

Lemma in_word_widen (p : phoneticData) :
  in_word p -> len (t p) + 1 <= Int.max_int -> in_word (widen p).
Proof.
  intros (H0 & H6 & _) Hmax. unfold in_word. cbn [widen cur t].
  rewrite len_append. change (len " ") with 1. lia.
Qed.

Lemma scanning_widen (p : phoneticData) :
  scanning p -> len (t p) + 1 <= Int.max_int -> scanning (widen p).
Proof.
  intros ([s Hs] & Hc & _) Hmax. unfold scanning. cbn [widen cur t].
  rewrite len_append. change (len " ") with 1.
  repeat split; try lia.
  exists (s ++ " "). rewrite Hs, !append_assoc. reflexivity.
Qed.

(** The body of the loop does the same over the wider text. *)
Lemma dispatch_widen (p p' : phoneticData) :
  scanning p -> cur p < len (t p) -> len (t p) + 1 <= Int.max_int ->
  dispatch p = Ok p' -> dispatch (widen p) = Ok (widen p').
Proof.
  intros Hs Hlt Hmax.
  assert (Hc : 0 <= cur p) by (destruct Hs as (_ & Hc & _); lia).
  unfold dispatch. cbn [widen t cur]. rewrite index_widen by lia.
  destruct (index (t p) (cur p)) as [next| |] eqn:Hnext; cbn [bind];
    try discriminate.
  destruct (byte_in next vowel_bytes).
  { destruct (cur p =? 0); cbn [bind]; intros [= <-]; reflexivity. }
  destruct (Ascii.eqb next "b") eqn:Hb.
  { apply Ascii.eqb_eq in Hb. subst next.
    assert (Hw : in_word p)
      by (apply (in_word_at p "b"); [assumption .. | discriminate]).
    destruct Hw as (_ & H6 & Hm). pose proof min_int_small.
    unfold b. cbn [add t cur set_codes widen].
    rewrite add_small by lia. rewrite index_widen by lia.
    destruct (index (t p) (cur p + 1)) as [ch| |]; cbn [bind];
      try discriminate.
    destruct (Ascii.eqb ch "b"); cbn [bind]; intros [= <-]; reflexivity. }
  destruct (Ascii.eqb next cedilla_byte).
  { cbn [bind ç]. intros [= <-]. reflexivity. }
  destruct (Ascii.eqb next "c") eqn:Hcc.
  { apply Ascii.eqb_eq in Hcc. subst next.
    assert (Hw : in_word p)
      by (apply (in_word_at p "c"); [assumption .. | discriminate]).
    rewrite (c_fires p Hw).
    rewrite (c_fires (widen p) (in_word_widen p Hw Hmax)).
    rewrite (first_match_widen p Hw). cbn [bind]. intros [= <-].
    destruct (first_match p); reflexivity. }
  cbn [bind]. intros [= <-]. reflexivity.
Qed.

Lemma scan_widen_end (fuel : nat) (p : phoneticData) :
  scanning p -> len (t p) <= cur p -> len (t p) + 1 <= Int.max_int ->
  scan (S fuel) (widen p) = Ok (set_cur (cur p + 1) (widen p)).
Proof.
  intros Hs Hend Hmax.
  assert (Hcur : cur p = len (t p)) by (destruct Hs as (_ & Hc & _); lia).
  assert (Hsw := scanning_widen p Hs Hmax).
  assert (Hlen : len (t (widen p)) = len (t p) + 1)
    by (cbn [widen t]; now rewrite len_append).
  assert (Hsp : index (t (widen p)) (cur (widen p)) = Ok " "%char).
  { apply index_Ok. rewrite Hlen. cbn [widen cur t].
    pose proof (len_nonneg (t p)). split; [lia|].
    rewrite get_append_right by (unfold len in Hcur; lia).
    replace (Z.to_nat (cur p) - String.length (t p))%nat with 0%nat
      by (unfold len in Hcur; lia).
    reflexivity. }
  cbn [scan].
  replace (cur (widen p) <? len (t (widen p))) with true
    by (symmetry; apply Z.ltb_lt; rewrite Hlen; cbn [widen cur]; lia).
  rewrite (dispatch_unhandled (widen p) " " Hsw Hsp eq_refl). cbn [bind].
  change (cur (widen p)) with (cur p).
  assert (Hstop : (cur (set_cur (cur p + 1) (widen p))
                   <? len (t (set_cur (cur p + 1) (widen p)))) = false).
  { apply Z.ltb_ge. cbn [set_cur cur t]. rewrite Hlen. lia. }
  destruct fuel; cbn [scan]; now rewrite Hstop.
Qed.

(** The loop over the wider text ends with the same codes. *)
Lemma scan_widen (fuel : nat) :
  forall p p',
    scanning p -> len (t p) + 1 <= Int.max_int ->
    scan fuel p = Ok p' ->
    exists q', scan (S fuel) (widen p) = Ok q'
      /\ metaphone1 q' = metaphone1 p' /\ metaphone2 q' = metaphone2 p'.
Proof.
  induction fuel as [|fuel IH]; intros p p' Hs Hmax Hscan.
  - cbn [scan] in Hscan.
    destruct (Z.ltb_spec (cur p) (len (t p))) as [Hlt|Hge]; [discriminate|].
    injection Hscan as <-.
    rewrite (scan_widen_end 0 p Hs Hge Hmax). eexists. split; [reflexivity|].
    now split.
  - cbn [scan] in Hscan.
    destruct (Z.ltb_spec (cur p) (len (t p))) as [Hlt|Hge].
    + destruct (dispatch p) as [p1| |] eqn:Hd; cbn [bind] in Hscan;
        try discriminate.
      destruct (scanning_step p p1 Hs Hlt Hd) as (Hs1 & Ht1 & _).
      destruct (IH p1 p' Hs1 ltac:(rewrite Ht1; exact Hmax) Hscan)
        as (q' & Hq' & H1 & H2).
      exists q'. split; [|now split].
      cbn [scan].
      replace (cur (widen p) <? len (t (widen p))) with true.
      * now rewrite (dispatch_widen p p1 Hs Hlt Hmax Hd).
      * symmetry. apply Z.ltb_lt. cbn [widen cur t]. rewrite len_append.
        pose proof (len_nonneg " "). lia.
    + injection Hscan as <-.
      rewrite (scan_widen_end (S fuel) p Hs Hge Hmax).
      eexists. split; [reflexivity|]. now split.
Qed.

Lemma text_widen (s : string) :
  (s ++ " ") ++ padding = (s ++ padding) ++ " ".
Proof. now rewrite !append_assoc. Qed.

Lemma on_entry_widen (s : string) :
  on_entry (s ++ " ") = widen (on_entry s).
Proof.
  pose proof (len_nonneg s) as Hlen.
  assert (Hinit : initial (s ++ " ") = widen (initial s))
    by (unfold initial, widen; cbn [t cur isSlavoGermanic metaphone1 metaphone2];
        now rewrite text_widen).
  assert (Hskip : after_skip (s ++ " ") = widen (after_skip s)).
  { unfold after_skip. rewrite Hinit, win_in_widen.
    - now destruct (win_in (initial s) 0 silent_clusters).
    - cbn [initial t cur]. rewrite len_padded.
      repeat constructor; cbn; lia. }
  unfold on_entry. rewrite Hskip, win_in_widen.
  - now destruct (win_in (after_skip s) 0 ["x"]).
  - destruct (after_skip_shape s) as (Ht & Hc & _).
    rewrite Ht, len_padded.
    repeat constructor; destruct Hc as [-> | ->]; cbn; lia.
Qed.

Lemma Metaphone_widen (s : string) :
  representable (s ++ " ") -> Metaphone (s ++ " ") = Metaphone s.
Proof.
  intros Hr.
  assert (Hlen : len ((s ++ " ") ++ padding) = len (s ++ padding) + 1)
    by (now rewrite text_widen, len_append).
  assert (Hrs : representable s) by (unfold representable in *; lia).
  destruct (Metaphone_runs s Hrs) as (p0 & p' & Hp0 & Hscan & _ & Hm).
  destruct (prescan_scanning s p0 Hrs Hp0) as [Hs Ht].
  rewrite prescan_on_entry in Hp0. injection Hp0 as <-.
  destruct (scan_widen _ _ _ Hs ltac:(rewrite Ht, <- Hlen; exact Hr) Hscan)
    as (q' & Hq' & H1 & H2).
  rewrite Hm. unfold Metaphone, Metaphone_fuel.
  rewrite prescan_on_entry, on_entry_widen. cbn [bind].
  replace (String.length ((s ++ " ") ++ padding))
    with (S (String.length (s ++ padding)))
    by (rewrite text_widen, !length_append; cbn; lia).
  rewrite Hq'. cbn [bind]. now rewrite H1, H2.
Qed.

Lemma replicate_snoc (k : nat) (ch : ascii) :
  replicate (S k) ch = replicate k ch ++ String ch "".
Proof. induction k as [|k IH]; [reflexivity|]. cbn in *. now rewrite <- IH. Qed.

(** X15.  Spaces at the end of the input change nothing: the input
    followed by any number of spaces is encoded as the input itself.  No
    window read with the cursor on a byte of the word ends past the five
    bytes of padding, so the loop cannot tell a space of the input from a
    space of the padding. *)
Theorem trailing_spaces_ignored (s : string) (k : nat) :
  representable (s ++ replicate k " ") ->
  Metaphone (s ++ replicate k " ") = Metaphone s.
Proof.
  induction k as [|k IH]; intros Hr.
  - cbn [replicate]. now rewrite append_empty_r.
  - rewrite replicate_snoc, <- append_assoc in *.
    rewrite (Metaphone_widen _ Hr). apply IH.
    unfold representable in *. rewrite text_widen, len_append in Hr.
    pose proof (len_nonneg " "). lia.
Qed.

Lemma trailing_spaces_ignored_witness :
  Metaphone "bach  " = Metaphone "bach".
Proof.
  apply (trailing_spaces_ignored "bach" 2). vm_compute. discriminate.
Defined.

(** ** The contract of the matcher inside the text *)



(** ** A c with none of its contexts *)

Lemma ach_is_ch (p : phoneticData) :
  1 < cur p -> win_in p (-1) ["ach"] = true -> win_in p 0 ["ch"] = true.
Proof.
  intros Hc H. unfold win_in in *. cbn [existsb] in *.
  apply andb_prop in H. destruct H as [_ H]. rewrite orb_false_r in *.
  replace (0 <=? cur p + 0) with true by (symmetry; apply Z.leb_le; lia).
  cbn [andb]. apply String.eqb_eq. unfold window in *.
  apply get_correct. intros k.
  destruct (Nat.lt_ge_cases k 2) as [Hk|Hk].
  - rewrite substring_correct1 by (cbn; lia).
    pose proof (window_bytes (t p) "ach" _ (S k) H ltac:(cbn; lia)) as Hb.
    replace (k + Z.to_nat (cur p + 0))%nat
      with (Z.to_nat (cur p + -1) + S k)%nat by lia.
    rewrite Hb. reflexivity.
  - rewrite substring_correct2 by (cbn; lia).
    symmetry. apply get_out_of_range. cbn. lia.
Qed.

(** X17.  A ['c'] in none of its contexts is silent: whenever the loop
    invokes the [c] handler and the bytes at the cursor are neither ["ch"]
    nor ["cz"], the bytes after the cursor are not ["cia"], and the text
    does not start with ["caesar"] at the cursor, the handler returns the
    state as it got it: no emission and no skip. *)
Theorem c_alone_is_silent (p : phoneticData) :
  scanning p -> index (t p) (cur p) = Ok "c"%char ->
  win_in p 0 ["ch"] = false -> win_in p 0 ["cz"] = false ->
  win_in p 1 ["cia"] = false -> applies rule2 p = false ->
  c p = Ok p.
Proof.
  intros Hs Hi Hch Hcz Hcia Hcaesar.
  assert (Hw : in_word p)
    by (apply (in_word_at p "c"); [assumption .. | discriminate]).
  rewrite (c_fires p Hw).
  assert (H1 : applies rule1 p = false).
  { cbn [applies rule1].
    destruct (Z.ltb_spec 1 (cur p)) as [Hc|Hc]; [|reflexivity].
    destruct (win_in p (-1) ["ach"]) eqn:Hach;
      [|now rewrite andb_false_r].
    rewrite (ach_is_ch p Hc Hach) in Hch. discriminate Hch. }
  assert (H3 : applies rule3 p = false).
  { cbn [applies rule3].
    destruct (win_in p 0 ["chia"]) eqn:Hchia; [|reflexivity].
    exfalso.
    unfold win_in in Hchia, Hch. cbn [existsb] in Hchia, Hch.
    apply andb_prop in Hchia. destruct Hchia as [Hpos Hchia].
    rewrite Hpos, orb_false_r in *. cbn [andb] in Hch.
    apply String.eqb_neq in Hch. apply Hch. unfold window in *.
    apply get_correct. intros k.
    destruct (Nat.lt_ge_cases k 2) as [Hk|Hk].
    - rewrite substring_correct1 by (cbn; lia).
      pose proof (window_bytes (t p) "chia" _ k Hchia ltac:(cbn; lia)) as Hb.
      rewrite Nat.add_comm, Hb.
      destruct k as [|[|k]]; [reflexivity | reflexivity | lia].
    - rewrite substring_correct2 by (cbn; lia).
      symmetry. apply get_out_of_range. cbn. lia. }
  unfold first_match, c_table. cbn [find].
  rewrite H1, Hcaesar, H3.
  cbn [applies rule4a rule4b rule4c rule4d rule4e rule4f rule5 rule6].
  rewrite Hch, Hcz, Hcia. reflexivity.
Qed.

Lemma c_alone_is_silent_witness : c (initial "cat") = Ok (initial "cat").
Proof.
  apply c_alone_is_silent; try reflexivity.
  repeat split; [now exists "cat" | vm_compute; discriminate ..].
Defined.
